(** * sqlalchemy_storages.s3 : the S3 storage backend

    A shallow embedding of [src/sqlalchemy_storages/s3.py] (class
    [S3Storage]) together with the parts of Python's [pathlib] it calls,
    and the properties of key normalisation, collision resolution,
    construction and upload that the specification states about it.

    Conventions.
    - A Python [str] is a [string]; a character outside ASCII is the
      sequence of its UTF-8 bytes.  Only ["/"], ["."], white space and the
      ASCII letters, digits, ["_"], ["."] and ["-"] are ever inspected.
    - A Python call that may raise returns a [result]: [Ok v] or
      [Raise e].
    - The [while] loop of [generate_new_filename] is a step function on
      the loop's variables, iterated with fuel; [None] means that the loop
      is still running when the fuel is used up.
    - [pathlib.Path] is the POSIX flavour ([PurePosixPath]). *)

From Stdlib Require Import String Ascii List Arith Lia Bool.
From Stdlib Require Import Decimal DecimalString.
From Stdlib Require DecimalNat.
From stdpp Require Import base strings gmap.

Local Open Scope string_scope.
Local Open Scope list_scope.
Import ListNotations.

(** ** Exceptions and results *)

Inductive exn : Type :=
| AssertionError (msg : string)
| ValueError (msg : string)
| ClientError (code : string)      (* botocore.exceptions.ClientError *)
| TransportFailure (what : string) (* any exception that is not a ClientError *).

Inductive result (A : Type) : Type :=
| Ok (a : A)
| Raise (e : exn).
Arguments Ok {A} a.
Arguments Raise {A} e.

Definition bind {A B : Type} (r : result A) (k : A -> result B) : result B :=
  match r with
  | Ok a => k a
  | Raise e => Raise e
  end.

Notation "x <-! r ;; k" := (bind r (fun x => k))
  (at level 100, r at next level, right associativity).

(** ** Python string operations used by the module *)

Module Str.

Definition sep : ascii := "/"%char.
Definition dot : ascii := "."%char.

(** [s.split("/")] *)
Fixpoint split (s : string) : list string :=
  match s with
  | EmptyString => [EmptyString]
  | String c r =>
      if Ascii.eqb c sep then EmptyString :: split r
      else match split r with
           | h :: t => String c h :: t
           | [] => [String c EmptyString]
           end
  end.

(** ["/".join(l)] *)
Fixpoint join (l : list string) : string :=
  match l with
  | [] => EmptyString
  | [x] => x
  | x :: t => x +:+ String sep (join t)
  end.

(** ["/" in s] *)
Fixpoint has_sep (s : string) : bool :=
  match s with
  | EmptyString => false
  | String c r => Ascii.eqb c sep || has_sep r
  end.

(** [s.rfind(c)]; [None] stands for Python's [-1]. *)
Fixpoint rfind (c : ascii) (s : string) : option nat :=
  match s with
  | EmptyString => None
  | String a r =>
      match rfind c r with
      | Some i => Some (S i)
      | None => if Ascii.eqb a c then Some 0 else None
      end
  end.

(** [s[:i]] and [s[i:]] for [0 <= i]. *)
Definition take (i : nat) (s : string) : string := substring 0 i s.
Definition drop (i : nat) (s : string) : string :=
  substring i (String.length s - i) s.

(** [s.startswith(p)] *)
Definition startswith (p s : string) : bool := String.prefix p s.

(** [str(n)] for a non-negative [int]. *)
Definition of_nat (n : nat) : string :=
  NilZero.string_of_uint (Nat.to_uint n).

Definition eqb (a b : string) : bool := String.eqb a b.

End Str.

(** ** pathlib.PurePosixPath

    The behaviour of CPython 3.13.  Earlier versions differ in [with_name]
    only for a replacement name that is ["."] or holds a separator; 3.14
    gives a name that ends in a dot the suffix ["."]. *)

Module Path.

(** A parsed path: the root (["", "/"] or ["//"]) and the segments after
    it ([_tail]). *)
Record t : Type := mk { root : string; tail : list string }.

(** [posixpath.splitroot]: one leading slash is the root ["/"], exactly
    two are the root ["//"], three or more are the root ["/"]. *)
Definition splitroot (p : string) : string * string :=
  match p with
  | String c1 r1 =>
      if Ascii.eqb c1 Str.sep then
        match r1 with
        | String c2 r2 =>
            if Ascii.eqb c2 Str.sep then
              match r2 with
              | String c3 _ =>
                  if Ascii.eqb c3 Str.sep then ("/", r1) else ("//", r2)
              | EmptyString => ("//", r2)
              end
            else ("/", r1)
        | EmptyString => ("/", r1)
        end
      else ("", p)
  | EmptyString => ("", p)
  end.

Definition keep_segment (x : string) : bool :=
  negb (Str.eqb x "") && negb (Str.eqb x ".").

(** [Path(s)]: empty segments and ["."] segments are dropped. *)
Definition parse (s : string) : t :=
  let '(r, rel) := splitroot s in
  mk r (List.filter keep_segment (Str.split rel)).

(** [str(p)] *)
Definition to_str (p : t) : string :=
  let s := root p +:+ Str.join (tail p) in
  if Str.eqb s "" then "." else s.

(** [p.name]: the last segment, or [""] when there is none. *)
Definition name (p : t) : string := List.last (tail p) "".

(** [p.suffix] *)
Definition suffix (p : t) : string :=
  let n := name p in
  match Str.rfind Str.dot n with
  | Some i =>
      if (0 <? i)%nat && (i <? String.length n - 1)%nat
      then Str.drop i n else ""
  | None => ""
  end.

(** [p.stem] *)
Definition stem (p : t) : string :=
  let n := name p in
  match Str.rfind Str.dot n with
  | Some i =>
      if (0 <? i)%nat && (i <? String.length n - 1)%nat
      then Str.take i n else n
  | None => n
  end.

(** [p.with_name(n)] *)
Definition with_name (p : t) (n : string) : result t :=
  if Str.eqb (name p) "" then Raise (ValueError "has an empty name")
  else if Str.eqb n "" || Str.has_sep n || Str.eqb n "."
  then Raise (ValueError "Invalid name")
  else Ok (mk (root p) (List.removelast (tail p) ++ [n])).

End Path.

(** ** sqlalchemy_storages.utils *)

Module Utils.

(** Modelled from the spec: the helpers of [secure_filename] below.
    White space and the path separator: what separates the words of a
    file name. *)
Definition is_separator (c : ascii) : bool :=
  let n := nat_of_ascii c in
  (n =? 32)%nat || ((9 <=? n)%nat && (n <=? 13)%nat) || Ascii.eqb c Str.sep.

(** Modelled from the spec: the allowed character set of a sanitised
    leaf, ASCII letters, digits, ["_"], ["."] and ["-"]. *)
Definition allowed (c : ascii) : bool :=
  let n := nat_of_ascii c in
  ((48 <=? n)%nat && (n <=? 57)%nat)
  || ((65 <=? n)%nat && (n <=? 90)%nat)
  || ((97 <=? n)%nat && (n <=? 122)%nat)
  || (n =? 95)%nat || (n =? 46)%nat || (n =? 45)%nat.

(** Modelled from the spec: "collapse repeated separators".  Runs of
    separators between two words become one ["_"]; leading and trailing
    separators vanish.  [started]: a word was emitted;
    [gap]: separators were skipped since. *)
Fixpoint collapse (started gap : bool) (s : string) : string :=
  match s with
  | EmptyString => EmptyString
  | String c r =>
      if is_separator c then collapse started true r
      else if started && gap then String "_" (String c (collapse true false r))
      else String c (collapse true false r)
  end.

Fixpoint keep_allowed (s : string) : string :=
  match s with
  | EmptyString => EmptyString
  | String c r =>
      if allowed c then String c (keep_allowed r) else keep_allowed r
  end.

Fixpoint strip_leading (s : string) : string :=
  match s with
  | EmptyString => EmptyString
  | String c r =>
      if Ascii.eqb c "." || Ascii.eqb c "-" then strip_leading r else s
  end.

(** Modelled from the spec: [secure_filename] of
    [sqlalchemy_storages/utils.py] is imported by [s3.py] but is not part
    of the sources at hand.  The specification (section 4.1) has it
    "strip characters unsafe for storage keys and URLs (non-ASCII, path
    separators, control characters, leading dots/dashes that could be
    misinterpreted), collapse repeated separators", yielding "only the
    allowed character set"; an empty result is returned as such and is
    rejected by the caller ([Path.with_name] in [get_name]). *)
Definition secure_filename (filename : string) : string :=
  strip_leading (keep_allowed (collapse false false filename)).

Fixpoint all_allowed (s : string) : bool :=
  match s with
  | EmptyString => true
  | String c r => allowed c && all_allowed r
  end.

(** An allowed character that [strip_leading] keeps. *)
Definition solid (c : ascii) : bool :=
  allowed c && negb (Ascii.eqb c "." || Ascii.eqb c "-").

Fixpoint has_solid (s : string) : bool :=
  match s with
  | EmptyString => false
  | String c r => solid c || has_solid r
  end.

End Utils.

(** ** The backend primitives (boto3's S3 client) *)

(** The answer of [head_object]: the object's [ContentLength]. *)
Record head_response : Type := { ContentLength : nat }.

(** An object held by a bucket. *)
Record s3_object : Type :=
  { Body : list Byte.byte; ContentType : string; ACL : string }.

(** A binary file object: its content and the read position. *)
Record BinaryIO : Type := { content : list Byte.byte; position : nat }.

(** [file.seek(0, 0)] *)
Definition seek_start (f : BinaryIO) : BinaryIO :=
  {| content := content f; position := 0 |}.

(** What [upload_fileobj] reads: the bytes from the read position on;
    the file is left at its end. *)
Definition read_all (f : BinaryIO) : list Byte.byte * BinaryIO :=
  (List.skipn (position f) (content f),
   {| content := content f;
      position := Nat.max (position f) (List.length (content f)) |}).

(** An in-memory bucket: [head_object] answers from the stored object and
    raises the client error 404 for an absent key. *)
Definition head_of_bucket (bucket : gmap string s3_object) (key : string)
  : result head_response :=
  match bucket !! key with
  | Some o => Ok {| ContentLength := List.length (Body o) |}
  | None => Raise (ClientError "404")
  end.

(** ** class S3Storage *)

Record Settings : Type :=
  { AWS_ACCESS_KEY_ID : string;
    AWS_SECRET_ACCESS_KEY : string;
    AWS_S3_BUCKET_NAME : string;
    AWS_S3_ENDPOINT_URL : string;
    AWS_S3_USE_SSL : bool;
    AWS_DEFAULT_ACL : string;
    AWS_QUERYSTRING_AUTH : bool;
    AWS_S3_CUSTOM_DOMAIN : string }.

Definition default_content_type : string := "application/octet-stream".

(** The arguments [__init__] hands to [boto3.client]. *)
Record client_args : Type :=
  { service_name : string;
    endpoint_url : string;
    use_ssl : bool;
    aws_access_key_id : string;
    aws_secret_access_key : string }.

Section Construction.

(** The client object of the SDK and its factory [boto3.client]; the
    module-level name [boto3] is [None] when the import failed. *)
Variable S3Client : Type.
Variable boto3 : option (client_args -> result S3Client).

Record S3Storage : Type :=
  { settings : Settings;
    _http_scheme : string;
    _url : string;
    _s3 : S3Client }.

(** [S3Storage.__init__] *)
Definition __init__ (self : Settings) : result S3Storage :=
  match boto3 with
  | None => Raise (AssertionError "'boto3' is not installed")
  | Some client =>
      if Str.startswith "http" (AWS_S3_ENDPOINT_URL self)
      then Raise (AssertionError "URL should not contain protocol")
      else
        let http_scheme := if AWS_S3_USE_SSL self then "https" else "http" in
        let url := http_scheme +:+ "://" +:+ AWS_S3_ENDPOINT_URL self in
        s3 <-! client {| service_name := "s3";
                         endpoint_url := url;
                         use_ssl := AWS_S3_USE_SSL self;
                         aws_access_key_id := AWS_ACCESS_KEY_ID self;
                         aws_secret_access_key := AWS_SECRET_ACCESS_KEY self |} ;;
        Ok {| settings := self;
              _http_scheme := http_scheme;
              _url := url;
              _s3 := s3 |}
  end.

End Construction.

Arguments settings {S3Client} _.
Arguments _http_scheme {S3Client} _.
Arguments _url {S3Client} _.
Arguments _s3 {S3Client} _.

(** The variables of the [while] loop of [generate_new_filename];
    [probed] is a ghost log of the keys handed to the existence check,
    most recent first. *)
Record loop_state : Type :=
  { filename : string; key : string; counter : nat; probed : list string }.

Inductive step_result : Type :=
| Running (st : loop_state)
| Finished (r : result string) (log : list string).

Section Naming.

(** [secure_filename], as imported from [sqlalchemy_storages.utils]. *)
Variable secure_filename : string -> string.

(** [S3Storage.get_name] *)
Definition get_name (name : string) : result string :=
  let filename := secure_filename (Path.name (Path.parse name)) in
  p <-! Path.with_name (Path.parse name) filename ;;
  Ok (Path.to_str p).

(** [S3Storage._check_object_exists], over the [head_object] primitive
    of the client (the bucket is fixed by the settings). *)
Definition _check_object_exists
    (head_object : string -> result head_response) (key : string)
  : result bool :=
  match head_object key with
  | Ok _ => Ok true
  | Raise (ClientError code) =>
      if Str.eqb code "404" then Ok false else Ok true
  | Raise e => Raise e
  end.

(** The method [self._check_object_exists] that the loop calls. *)
Variable check : string -> result bool.

(** [f"{stem}_{counter}{suffix}"] *)
Definition candidate (stem suffix : string) (counter : nat) : string :=
  stem +:+ "_" +:+ Str.of_nat counter +:+ suffix.

(** One evaluation of the loop condition, followed by the loop body when
    the condition holds. *)
Definition loop_step (stem suffix : string) (st : loop_state) : step_result :=
  let log := key st :: probed st in
  match check (key st) with
  | Raise e => Finished (Raise e) log
  | Ok false => Finished (Ok (filename st)) log
  | Ok true =>
      let counter := S (counter st) in
      let filename := candidate stem suffix counter in
      match get_name filename with
      | Raise e => Finished (Raise e) log
      | Ok key =>
          Running {| filename := filename; key := key;
                     counter := counter; probed := log |}
      end
  end.

Fixpoint while_loop (fuel : nat) (stem suffix : string) (st : loop_state)
  : option (result string * list string) :=
  match fuel with
  | O => None
  | S fuel' =>
      match loop_step stem suffix st with
      | Finished r log => Some (r, log)
      | Running st' => while_loop fuel' stem suffix st'
      end
  end.

(** The loop's variables after [n] full iterations, when it gets that
    far. *)
Fixpoint iterate (n : nat) (stem suffix : string) (st : loop_state)
  : option loop_state :=
  match n with
  | O => Some st
  | S n' =>
      match loop_step stem suffix st with
      | Finished _ _ => None
      | Running st' => iterate n' stem suffix st'
      end
  end.

Definition initial_state (filename key : string) : loop_state :=
  {| filename := filename; key := key; counter := 0; probed := [] |}.

(** [S3Storage.generate_new_filename]: the returned name or the raised
    exception, with the keys that were checked; [None] when [fuel]
    evaluations of the loop condition do not end the loop. *)
Definition generate_new_filename (fuel : nat) (filename : string)
  : option (result string * list string) :=
  match get_name filename with
  | Raise e => Some (Raise e, [])
  | Ok key =>
      let stem := Path.stem (Path.parse filename) in
      let suffix := Path.suffix (Path.parse filename) in
      while_loop fuel stem suffix (initial_state filename key)
  end.

(** [mimetypes.guess_type(key)[0]], a table of the standard library. *)
Variable guess_type : string -> option string.

(** [content_type or self.default_content_type] *)
Definition content_type_or_default (content_type : option string) : string :=
  match content_type with
  | Some t => if Str.eqb t "" then default_content_type else t
  | None => default_content_type
  end.

(** [upload_fileobj] on an in-memory bucket: [fault key] is the
    exception the transport raises for this upload, if any. *)
Variable fault : string -> option exn.

Definition upload_fileobj (bucket : gmap string s3_object) (file : BinaryIO)
    (key : string) (content_type acl : string)
  : result unit * gmap string s3_object * BinaryIO :=
  match fault key with
  | Some e => (Raise e, bucket, file)
  | None =>
      let '(bytes, file') := read_all file in
      (Ok tt,
       <[key := {| Body := bytes; ContentType := content_type; ACL := acl |}]> bucket,
       file')
  end.

(** [S3Storage.write] *)
Definition write (self : Settings) (bucket : gmap string s3_object)
    (file : BinaryIO) (name : string)
  : result string * gmap string s3_object * BinaryIO :=
  let file := seek_start file in
  match get_name name with
  | Raise e => (Raise e, bucket, file)
  | Ok key =>
      let content_type := guess_type key in
      match upload_fileobj bucket file key
              (content_type_or_default content_type) (AWS_DEFAULT_ACL self) with
      | (Raise e, bucket', file') => (Raise e, bucket', file')
      | (Ok _, bucket', file') => (Ok key, bucket', file')
      end
  end.

End Naming.

(** ** Predicates the properties are stated with *)

(** The key has a [".."] segment. *)
Definition has_traversal_segment (key : string) : bool :=
  List.existsb (Str.eqb "..") (Str.split key).

(** Every segment of the key is made of allowed characters only. *)
Definition only_allowed_characters (key : string) : bool :=
  List.forallb Utils.all_allowed (Str.split key).

(** The [i]-th name that [generate_new_filename] tries: the desired name
    itself, then the candidates with counter 1, 2, ... *)
Definition nth_name (filename : string) (i : nat) : string :=
  match i with
  | O => filename
  | S _ => candidate (Path.stem (Path.parse filename))
             (Path.suffix (Path.parse filename)) i
  end.

(** The name the loop holds [i] iterations after the state [st]. *)
Definition name_after (stem suffix : string) (st : loop_state) (i : nat)
  : string :=
  match i with
  | O => filename st
  | S _ => candidate stem suffix (counter st + i)
  end.

(** The exception of a failed call, if it failed. *)
Definition failure {A : Type} (r : result A) : option exn :=
  match r with
  | Ok _ => None
  | Raise e => Some e
  end.

(** The settings with another bucket name. *)
Definition with_bucket (self : Settings) (bucket : string) : Settings :=
  {| AWS_ACCESS_KEY_ID := AWS_ACCESS_KEY_ID self;
     AWS_SECRET_ACCESS_KEY := AWS_SECRET_ACCESS_KEY self;
     AWS_S3_BUCKET_NAME := bucket;
     AWS_S3_ENDPOINT_URL := AWS_S3_ENDPOINT_URL self;
     AWS_S3_USE_SSL := AWS_S3_USE_SSL self;
     AWS_DEFAULT_ACL := AWS_DEFAULT_ACL self;
     AWS_QUERYSTRING_AUTH := AWS_QUERYSTRING_AUTH self;
     AWS_S3_CUSTOM_DOMAIN := AWS_S3_CUSTOM_DOMAIN self |}.

(** An existence check for which every key is taken. *)
Definition all_taken (k : string) : result bool := Ok true.

(** An existence check for which only ["uploads/a.png"] is taken. *)
Definition uploads_taken (k : string) : result bool :=
  Ok (Str.eqb k "uploads/a.png").

(** A content-type table that knows [".png"] only. *)
Definition guess_png (k : string) : option string :=
  if Str.eqb (Path.suffix (Path.parse k)) ".png" then Some "image/png" else None.

Definition no_fault (k : string) : option exn := None.

(** A transport on which every upload times out. *)
Definition upload_times_out (k : string) : option exn :=
  Some (TransportFailure "ReadTimeoutError").

(** The existence check on the normalised key of a name. *)
Definition probe (secure_filename : string -> string)
    (check : string -> result bool) (name : string) : result bool :=
  k <-! get_name secure_filename name ;; check k.

(** A fake existence check: exactly ["a.png"] and ["a_1.png"] exist. *)
Definition fake_exists (k : string) : result bool :=
  Ok (Str.eqb k "a.png" || Str.eqb k "a_1.png").

(** A [head_object] that is refused (403) for ["a.png"] and finds nothing
    (404) elsewhere. *)
Definition head_forbidden (k : string) : result head_response :=
  if Str.eqb k "a.png" then Raise (ClientError "403")
  else Raise (ClientError "404").

(** A [head_object] whose connection fails for ["a.png"]. *)
Definition head_unreachable (k : string) : result head_response :=
  if Str.eqb k "a.png" then Raise (TransportFailure "EndpointConnectionError")
  else Raise (ClientError "404").

(** A client factory that accepts any arguments and keeps them. *)
Definition lazy_client (a : client_args) : result client_args := Ok a.

Definition empty_settings : Settings :=
  {| AWS_ACCESS_KEY_ID := ""; AWS_SECRET_ACCESS_KEY := "";
     AWS_S3_BUCKET_NAME := ""; AWS_S3_ENDPOINT_URL := "s3.example.com";
     AWS_S3_USE_SSL := true; AWS_DEFAULT_ACL := "";
     AWS_QUERYSTRING_AUTH := false; AWS_S3_CUSTOM_DOMAIN := "" |}.

(** What [Path.parse] produces: one of the three roots, and segments that
    are neither empty nor ["."] and hold no separator. *)
Definition well_formed (p : Path.t) : Prop :=
  (Path.root p = "" \/ Path.root p = "/" \/ Path.root p = "//")
  /\ Forall (fun x => Path.keep_segment x = true /\ Str.has_sep x = false)
       (Path.tail p).

(** ** The other operations of the class *)

Section Reading.

(** [secure_filename], as imported from [sqlalchemy_storages.utils]. *)
Variable secure_filename : string -> string.

(** [S3Storage.get_size], over the [head_object] primitive of the client. *)
Definition get_size (head_object : string -> result head_response)
    (name : string) : result nat :=
  key <-! get_name secure_filename name ;;
  response <-! head_object key ;;
  Ok (ContentLength response).

(** The client object and its [generate_presigned_url("get_object",
    Params={"Bucket": bucket, "Key": key})]. *)
Variable S3Client : Type.
Variable generate_presigned_url : S3Client -> string -> string -> string -> result string.

(** [S3Storage.get_path] on a constructed instance. *)
Definition get_path (self : S3Storage S3Client) (name : string) : result string :=
  key <-! get_name secure_filename name ;;
  if negb (Str.eqb (AWS_S3_CUSTOM_DOMAIN (settings self)) "") then
    Ok (_http_scheme self +:+ "://" +:+ AWS_S3_CUSTOM_DOMAIN (settings self)
        +:+ "/" +:+ key)
  else if AWS_QUERYSTRING_AUTH (settings self) then
    generate_presigned_url (_s3 self) "get_object"
      (AWS_S3_BUCKET_NAME (settings self)) key
  else
    Ok (_http_scheme self +:+ "://" +:+ AWS_S3_ENDPOINT_URL (settings self)
        +:+ "/" +:+ AWS_S3_BUCKET_NAME (settings self) +:+ "/" +:+ key).

End Reading.

Module Storage.

(** [delete_object] on an in-memory bucket: removing an absent key is no
    error; [fault key] is the exception the transport raises, if any. *)
Definition delete_object (fault : string -> option exn)
    (bucket : gmap string s3_object) (key : string)
  : result unit * gmap string s3_object :=
  match fault key with
  | Some e => (Raise e, bucket)
  | None => (Ok tt, base.delete key bucket)
  end.

(** [S3Storage.delete] *)
Definition delete (secure_filename : string -> string)
    (fault : string -> option exn)
    (bucket : gmap string s3_object) (name : string)
  : result unit * gmap string s3_object :=
  match get_name secure_filename name with
  | Raise e => (Raise e, bucket)
  | Ok key => delete_object fault bucket key
  end.

End Storage.

(** A presigner that answers with the bucket and the key. *)
Definition fake_presign (client : client_args) (method bucket key : string)
  : result string :=
  Ok ("signed:" +:+ bucket +:+ "/" +:+ key).

(** An instance as [__init__] builds it from [empty_settings]. *)
Definition plain_instance : S3Storage client_args :=
  {| settings := empty_settings;
     _http_scheme := "https";
     _url := "https://s3.example.com";
     _s3 := {| service_name := "s3"; endpoint_url := "https://s3.example.com";
               use_ssl := true; aws_access_key_id := "";
               aws_secret_access_key := "" |} |}.

(** A bucket that holds ["a.png"] and ["a_1.png"]. *)
Definition two_objects : gmap string s3_object :=
  <["a.png" := {| Body := [Byte.x89]; ContentType := "image/png"; ACL := "" |}]>
    (<["a_1.png" := {| Body := []; ContentType := "image/png"; ACL := "" |}]> ∅).

(** * Properties *)

(** ** Strings *)

Lemma eqb_true (a b : string) : Str.eqb a b = true <-> a = b.
Proof. apply String.eqb_eq. Qed.

Lemma eqb_false (a b : string) : Str.eqb a b = false <-> a <> b.
Proof. apply String.eqb_neq. Qed.

Lemma has_sep_app (a b : string) :
  Str.has_sep (a +:+ b) = Str.has_sep a || Str.has_sep b.
Proof.
  induction a as [|c a IH]; simpl; [reflexivity|].
  rewrite IH. now rewrite orb_assoc.
Qed.

Lemma has_sep_substring (s : string) :
  Str.has_sep s = false -> forall n m, Str.has_sep (substring n m s) = false.
Proof.
  induction s as [|c s IH]; intros H n m.
  - destruct n, m; reflexivity.
  - simpl in H. apply orb_false_elim in H as [Hc Hs].
    destruct n as [|n]; destruct m as [|m]; simpl; auto.
    rewrite Hc. simpl. apply (IH Hs 0 m).
Qed.

Lemma has_sep_digits (d : Decimal.uint) :
  Str.has_sep (NilEmpty.string_of_uint d) = false.
Proof. induction d; simpl; auto. Qed.

Lemma has_sep_of_nat (n : nat) : Str.has_sep (Str.of_nat n) = false.
Proof.
  unfold Str.of_nat, NilZero.string_of_uint.
  destruct (Nat.to_uint n); try reflexivity; apply has_sep_digits.
Qed.

Lemma split_without_sep (s : string) :
  Str.has_sep s = false -> Str.split s = [s].
Proof.
  induction s as [|c s IH]; simpl; intros H; [reflexivity|].
  apply orb_false_elim in H as [Hc Hs].
  rewrite Hc, (IH Hs). reflexivity.
Qed.

Lemma split_segments (s : string) :
  Forall (fun x => Str.has_sep x = false) (Str.split s).
Proof.
  induction s as [|c s IH]; simpl.
  - constructor; [reflexivity|constructor].
  - destruct (Ascii.eqb c Str.sep) eqn:Hc.
    + constructor; [reflexivity|exact IH].
    + destruct (Str.split s) as [|h t].
      * constructor; [simpl; now rewrite Hc|constructor].
      * inversion IH; subst. constructor; [simpl; now rewrite Hc|assumption].
Qed.

Lemma split_join (l : list string) :
  l <> [] -> Forall (fun x => Str.has_sep x = false) l ->
  Str.split (Str.join l) = l.
Proof.
  induction l as [|x t IH]; intros Hne Hall; [congruence|].
  inversion Hall as [|? ? Hx Ht]; subst.
  destruct t as [|y t].
  - simpl. now apply split_without_sep.
  - change (Str.join (x :: y :: t)) with (x +:+ String Str.sep (Str.join (y :: t))).
    assert (IH' : Str.split (Str.join (y :: t)) = y :: t) by (apply IH; [discriminate|assumption]).
    clear IH Hall Hne. remember (Str.join (y :: t)) as j eqn:Hj. clear Hj.
    revert Hx. induction x as [|c x IHx]; intros Hx.
    + simpl. now rewrite IH'.
    + simpl in Hx. apply orb_false_elim in Hx as [Hc Hx].
      simpl. rewrite Hc. now rewrite (IHx Hx).
Qed.

(** ** Paths *)

Lemma filter_all {A} (f : A -> bool) (l : list A) :
  Forall (fun x => f x = true) l -> List.filter f l = l.
Proof.
  induction 1 as [|x l Hx _ IH]; simpl; [reflexivity|].
  now rewrite Hx, IH.
Qed.

Lemma Forall_removelast {A} (P : A -> Prop) (l : list A) :
  Forall P l -> Forall P (List.removelast l).
Proof.
  induction 1 as [|x l Hx Hl IH]; simpl; [constructor|].
  destruct l; [constructor|]. constructor; assumption.
Qed.

Lemma splitroot_roots (s : string) :
  fst (Path.splitroot s) = "" \/ fst (Path.splitroot s) = "/"
  \/ fst (Path.splitroot s) = "//".
Proof.
  unfold Path.splitroot.
  destruct s as [|c1 [|c2 [|c3 r3]]]; simpl; auto;
    repeat match goal with
           | |- context [if ?b then _ else _] => destruct b; simpl; auto
           end.
Qed.

Lemma parse_well_formed (s : string) : well_formed (Path.parse s).
Proof.
  unfold well_formed, Path.parse.
  pose proof (splitroot_roots s) as Hr.
  destruct (Path.splitroot s) as [r rel]; simpl in *. split; [exact Hr|].
  apply List.Forall_forall. intros x Hx.
  apply List.filter_In in Hx as [Hin Hk]. split; [exact Hk|].
  pose proof (split_segments rel) as Hs.
  rewrite List.Forall_forall in Hs. now apply Hs.
Qed.

(** The string that the segments join to is empty or starts with a
    character other than the separator. *)
Lemma join_head (l : list string) :
  Forall (fun x => Path.keep_segment x = true /\ Str.has_sep x = false) l ->
  (l = [] /\ Str.join l = "")
  \/ exists c r, Str.join l = String c r /\ Ascii.eqb c Str.sep = false.
Proof.
  intros H. destruct H as [|x l [Hk Hs] Hl]; [left; auto|right].
  destruct x as [|c x]; [discriminate Hk|].
  simpl in Hs. apply orb_false_elim in Hs as [Hc _].
  destruct l; simpl; eauto.
Qed.

Lemma splitroot_after_root (r rel : string) :
  (r = "" \/ r = "/" \/ r = "//") ->
  (rel = "" \/ exists c t, rel = String c t /\ Ascii.eqb c Str.sep = false) ->
  Path.splitroot (r +:+ rel) = (r, rel).
Proof.
  intros Hr Hrel. unfold Path.splitroot.
  destruct Hr as [-> | [-> | ->]];
    destruct Hrel as [-> | (c & t & -> & Hc)];
    simpl; try reflexivity; now rewrite Hc.
Qed.

Lemma parse_after_root (r rel : string) :
  (r = "" \/ r = "/" \/ r = "//") ->
  (rel = "" \/ exists c t, rel = String c t /\ Ascii.eqb c Str.sep = false) ->
  Path.parse (r +:+ rel)
  = Path.mk r (List.filter Path.keep_segment (Str.split rel)).
Proof.
  intros Hr Hrel. unfold Path.parse.
  now rewrite (splitroot_after_root r rel Hr Hrel).
Qed.

(** Parsing the string of a well-formed path gives the path back. *)
Lemma parse_to_str (p : Path.t) : well_formed p -> Path.parse (Path.to_str p) = p.
Proof.
  destruct p as [r tl]. intros [Hr Htl]; simpl in *.
  unfold Path.to_str; simpl.
  assert (Hkeep : List.filter Path.keep_segment tl = tl).
  { apply filter_all. eapply List.Forall_impl; [|exact Htl]. now intros x [Hx _]. }
  destruct (join_head tl Htl) as [[-> Hj] | (c & t & Hj & Hc)].
  - destruct Hr as [-> | [-> | ->]]; reflexivity.
  - assert (Hsplit : Str.split (Str.join tl) = tl).
    { apply split_join.
      - intros ->. discriminate Hj.
      - eapply List.Forall_impl; [|exact Htl]. now intros x [_ Hx]. }
    assert (Hne : Str.eqb (r +:+ Str.join tl) "" = false).
    { rewrite Hj. destruct Hr as [-> | [-> | ->]]; reflexivity. }
    rewrite Hne, parse_after_root; [|exact Hr|right; eauto].
    now rewrite Hsplit, Hkeep.
Qed.

Lemma name_replaced (r : string) (tl : list string) (n : string) :
  Path.name (Path.mk r (List.removelast tl ++ [n])) = n.
Proof. unfold Path.name; simpl. apply List.last_last. Qed.

Lemma name_without_sep (s : string) : Str.has_sep (Path.name (Path.parse s)) = false.
Proof.
  destruct (parse_well_formed s) as [_ H].
  unfold Path.name. induction H as [|x l [_ Hx] _ IH]; [reflexivity|].
  destruct l; [exact Hx|exact IH].
Qed.

Lemma stem_without_sep (s : string) : Str.has_sep (Path.stem (Path.parse s)) = false.
Proof.
  unfold Path.stem. pose proof (name_without_sep s) as H.
  destruct (Str.rfind _ _); [|exact H].
  destruct (_ && _); [|exact H]. now apply has_sep_substring.
Qed.

Lemma suffix_without_sep (s : string) :
  Str.has_sep (Path.suffix (Path.parse s)) = false.
Proof.
  unfold Path.suffix. pose proof (name_without_sep s) as H.
  destruct (Str.rfind _ _); [|reflexivity].
  destruct (_ && _); [|reflexivity]. now apply has_sep_substring.
Qed.

(** A name without separator that is neither empty nor ["."] is a path of
    one segment. *)
Lemma parse_leaf (s : string) :
  Str.has_sep s = false -> s <> "" -> s <> "." ->
  Path.parse s = Path.mk "" [s].
Proof.
  intros Hs Hne Hnd.
  assert (Hk : Path.keep_segment s = true).
  { unfold Path.keep_segment.
    apply eqb_false in Hne, Hnd. now rewrite Hne, Hnd. }
  change s with ("" +:+ s) at 1.
  rewrite parse_after_root; [|auto|].
  - rewrite (split_without_sep s Hs). simpl. now rewrite Hk.
  - destruct s as [|c t]; [left; reflexivity|right].
    simpl in Hs. apply orb_false_elim in Hs as [Hc _]. eauto.
Qed.

(** ** The sanitiser *)

Lemma allowed_not_separator (c : ascii) :
  Utils.allowed c = true -> Utils.is_separator c = false.
Proof.
  destruct c as [[] [] [] [] [] [] [] []]; vm_compute; intros H;
    first [reflexivity | discriminate H].
Qed.

Lemma allowed_not_sep (c : ascii) :
  Utils.allowed c = true -> Ascii.eqb c Str.sep = false.
Proof.
  destruct c as [[] [] [] [] [] [] [] []]; vm_compute; intros H;
    first [reflexivity | discriminate H].
Qed.

Lemma keep_allowed_all (s : string) :
  Utils.all_allowed (Utils.keep_allowed s) = true.
Proof.
  induction s as [|c s IH]; simpl; [reflexivity|].
  destruct (Utils.allowed c) eqn:Hc; simpl; [now rewrite Hc|exact IH].
Qed.

Lemma strip_leading_all (s : string) :
  Utils.all_allowed s = true -> Utils.all_allowed (Utils.strip_leading s) = true.
Proof.
  induction s as [|c s IH]; simpl; intros H; [reflexivity|].
  apply andb_prop in H as [Hc Hs].
  destruct (_ || _); [auto|]. simpl. now rewrite Hc, Hs.
Qed.

Lemma secure_filename_allowed (s : string) :
  Utils.all_allowed (Utils.secure_filename s) = true.
Proof. apply strip_leading_all, keep_allowed_all. Qed.

Lemma strip_leading_idempotent (s : string) :
  Utils.strip_leading (Utils.strip_leading s) = Utils.strip_leading s.
Proof.
  induction s as [|c s IH]; simpl; [reflexivity|].
  destruct (_ || _) eqn:Hc; [exact IH|]. simpl. now rewrite Hc.
Qed.

Lemma collapse_allowed (s : string) (started : bool) :
  Utils.all_allowed s = true -> Utils.collapse started false s = s.
Proof.
  revert started. induction s as [|c s IH]; simpl; intros started H; [reflexivity|].
  apply andb_prop in H as [Hc Hs].
  rewrite (allowed_not_separator c Hc), andb_false_r.
  now rewrite (IH true Hs).
Qed.

Lemma keep_allowed_fixed (s : string) :
  Utils.all_allowed s = true -> Utils.keep_allowed s = s.
Proof.
  induction s as [|c s IH]; simpl; intros H; [reflexivity|].
  apply andb_prop in H as [Hc Hs]. now rewrite Hc, (IH Hs).
Qed.

(** The modelled sanitiser is idempotent. *)
Lemma secure_filename_idempotent (s : string) :
  Utils.secure_filename (Utils.secure_filename s) = Utils.secure_filename s.
Proof.
  pose proof (secure_filename_allowed s) as Hall.
  unfold Utils.secure_filename at 1.
  rewrite (collapse_allowed _ false Hall), (keep_allowed_fixed _ Hall).
  unfold Utils.secure_filename. apply strip_leading_idempotent.
Qed.

Lemma allowed_without_sep (s : string) :
  Utils.all_allowed s = true -> Str.has_sep s = false.
Proof.
  induction s as [|c s IH]; simpl; intros H; [reflexivity|].
  apply andb_prop in H as [Hc Hs].
  now rewrite (allowed_not_sep c Hc), (IH Hs).
Qed.

Lemma strip_leading_not_dots (s : string) :
  Utils.strip_leading s <> "." /\ Utils.strip_leading s <> "..".
Proof.
  induction s as [|c s IH]; simpl; [split; discriminate|].
  destruct (_ || _) eqn:Hc; [exact IH|].
  apply orb_false_elim in Hc as [Hc _].
  split; intros [= -> _]; discriminate Hc.
Qed.

Lemma has_solid_app (a b : string) :
  Utils.has_solid (a +:+ b) = Utils.has_solid a || Utils.has_solid b.
Proof.
  induction a as [|c a IH]; simpl; [reflexivity|].
  now rewrite IH, orb_assoc.
Qed.

Lemma solid_not_separator (c : ascii) :
  Utils.solid c = true -> Utils.is_separator c = false.
Proof.
  unfold Utils.solid. intros H. apply andb_prop in H as [H _].
  now apply allowed_not_separator.
Qed.

Lemma has_solid_collapse (s : string) (started gap : bool) :
  Utils.has_solid s = true ->
  Utils.has_solid (Utils.collapse started gap s) = true.
Proof.
  revert started gap. induction s as [|c s IH]; simpl; intros started gap H;
    [discriminate|].
  destruct (Utils.is_separator c) eqn:Hsep.
  - destruct (Utils.solid c) eqn:Hc.
    + apply solid_not_separator in Hc. congruence.
    + apply IH. exact H.
  - destruct (started && gap); simpl;
      destruct (Utils.solid c); simpl in *;
      rewrite ?orb_true_r; auto.
Qed.

Lemma has_solid_keep (s : string) :
  Utils.has_solid s = true -> Utils.has_solid (Utils.keep_allowed s) = true.
Proof.
  induction s as [|c s IH]; simpl; intros H; [discriminate|].
  destruct (Utils.solid c) eqn:Hc; simpl in H.
  - pose proof Hc as Ha. unfold Utils.solid in Ha.
    apply andb_prop in Ha as [Ha _]. rewrite Ha. simpl. now rewrite Hc.
  - destruct (Utils.allowed c); simpl; rewrite ?Hc; simpl; auto.
Qed.

Lemma has_solid_strip (s : string) :
  Utils.has_solid s = true -> Utils.strip_leading s <> "".
Proof.
  induction s as [|c s IH]; simpl; intros H; [discriminate|].
  destruct (Ascii.eqb c "." || Ascii.eqb c "-") eqn:Hc; [|discriminate].
  apply IH. unfold Utils.solid in H. rewrite Hc in H.
  rewrite andb_false_r in H. exact H.
Qed.

Lemma secure_filename_nonempty (s : string) :
  Utils.has_solid s = true -> Utils.secure_filename s <> "".
Proof.
  intros H. apply has_solid_strip, has_solid_keep, has_solid_collapse, H.
Qed.

(** ** get_name *)

Section GetName.

Variable secure_filename : string -> string.

(** What a successful [get_name] did. *)
Lemma get_name_ok (x k : string) :
  get_name secure_filename x = Ok k ->
  let leaf := secure_filename (Path.name (Path.parse x)) in
  Path.name (Path.parse x) <> "" /\ leaf <> "" /\ Str.has_sep leaf = false
  /\ leaf <> "."
  /\ k = Path.to_str (Path.mk (Path.root (Path.parse x))
                        (List.removelast (Path.tail (Path.parse x)) ++ [leaf])).
Proof.
  intros H leaf. unfold get_name, Path.with_name in H. fold leaf in H.
  destruct (Str.eqb (Path.name (Path.parse x)) "") eqn:Hn; [discriminate H|].
  destruct (Str.eqb leaf "") eqn:H1; [discriminate H|].
  destruct (Str.has_sep leaf) eqn:H2; [discriminate H|].
  destruct (Str.eqb leaf ".") eqn:H3; [discriminate H|].
  simpl in H. injection H as <-.
  apply eqb_false in Hn, H1, H3. auto.
Qed.

Lemma replaced_well_formed (p : Path.t) (leaf : string) :
  well_formed p -> leaf <> "" -> leaf <> "." -> Str.has_sep leaf = false ->
  well_formed (Path.mk (Path.root p) (List.removelast (Path.tail p) ++ [leaf])).
Proof.
  intros [Hr Ht] H1 H2 H3. split; [exact Hr|]. simpl.
  apply List.Forall_app. split; [now apply Forall_removelast|].
  constructor; [|constructor]. split; [|exact H3].
  unfold Path.keep_segment. apply eqb_false in H1, H2. now rewrite H1, H2.
Qed.

(** The key parses to the input's path with the leaf replaced by the
    sanitised leaf. *)
Lemma key_parse (x k : string) :
  get_name secure_filename x = Ok k ->
  Path.parse k
  = Path.mk (Path.root (Path.parse x))
      (List.removelast (Path.tail (Path.parse x))
         ++ [secure_filename (Path.name (Path.parse x))]).
Proof.
  intros H. apply get_name_ok in H as (_ & H1 & H2 & H3 & ->).
  apply parse_to_str, replaced_well_formed; auto using parse_well_formed.
Qed.

(** A key is its own key when the sanitiser is idempotent. *)
Lemma get_name_fixed (x k : string) :
  (forall s, secure_filename (secure_filename s) = secure_filename s) ->
  get_name secure_filename x = Ok k ->
  get_name secure_filename k = Ok k.
Proof.
  intros Hidem H. pose proof (key_parse x k H) as Hp.
  apply get_name_ok in H as (_ & H1 & H2 & H3 & Hk).
  unfold get_name, Path.with_name. rewrite Hp, name_replaced, Hidem.
  apply eqb_false in H1, H3. rewrite H1, H2, H3. simpl.
  rewrite List.removelast_last. now rewrite Hk.
Qed.

(** A one-segment name gets a key as soon as its sanitised form is a
    valid leaf. *)
Lemma get_name_leaf (s : string) :
  Str.has_sep s = false -> s <> "" -> s <> "." ->
  secure_filename s <> "" -> secure_filename s <> "." ->
  Str.has_sep (secure_filename s) = false ->
  get_name secure_filename s = Ok (secure_filename s).
Proof.
  intros Hs Hne Hnd H1 H2 H3.
  unfold get_name, Path.with_name. rewrite (parse_leaf s Hs Hne Hnd).
  unfold Path.name; simpl.
  apply eqb_false in Hne, H1, H2. rewrite Hne, H1, H2, H3. simpl.
  unfold Path.to_str; simpl.
  change ("" +:+ secure_filename s) with (secure_filename s). now rewrite H1.
Qed.

End GetName.

Lemma candidate_without_sep (stem suffix : string) (n : nat) :
  Str.has_sep stem = false -> Str.has_sep suffix = false ->
  Str.has_sep (candidate stem suffix n) = false.
Proof.
  intros H1 H2. unfold candidate.
  rewrite !has_sep_app, H1, H2, has_sep_of_nat. reflexivity.
Qed.

Lemma candidate_solid (stem suffix : string) (n : nat) :
  Utils.has_solid (candidate stem suffix n) = true.
Proof.
  unfold candidate. rewrite !has_solid_app.
  change (Utils.has_solid "_") with true. now rewrite orb_true_r.
Qed.

(** With the modelled sanitiser every candidate has a key. *)
Lemma candidate_key (stem suffix : string) (n : nat) :
  Str.has_sep stem = false -> Str.has_sep suffix = false ->
  get_name Utils.secure_filename (candidate stem suffix n)
  = Ok (Utils.secure_filename (candidate stem suffix n)).
Proof.
  intros H1 H2. pose proof (candidate_solid stem suffix n) as Hs.
  apply get_name_leaf.
  - now apply candidate_without_sep.
  - intros E. rewrite E in Hs. discriminate Hs.
  - intros E. rewrite E in Hs. discriminate Hs.
  - now apply secure_filename_nonempty.
  - apply strip_leading_not_dots.
  - apply allowed_without_sep, secure_filename_allowed.
Qed.

(** ** The loop of generate_new_filename *)

Section Loop.

Variable secure_filename : string -> string.
Variable check : string -> result bool.
Variables stem suffix : string.

Lemma probe_ok (name : string) (b : bool) :
  probe secure_filename check name = Ok b
  <-> exists k, get_name secure_filename name = Ok k /\ check k = Ok b.
Proof.
  unfold probe. destruct (get_name secure_filename name) as [k|e]; simpl.
  - split; [eauto|]. now intros (k' & [= <-] & H).
  - split; [discriminate|]. now intros (k' & [=] & _).
Qed.

Lemma step_taken (st : loop_state) (k' : string) :
  check (key st) = Ok true ->
  get_name secure_filename (candidate stem suffix (S (counter st))) = Ok k' ->
  loop_step secure_filename check stem suffix st
  = Running {| filename := candidate stem suffix (S (counter st));
               key := k'; counter := S (counter st);
               probed := key st :: probed st |}.
Proof. intros H1 H2. unfold loop_step. now rewrite H1, H2. Qed.

Lemma name_after_step (st st' : loop_state) (i : nat) :
  filename st' = candidate stem suffix (S (counter st)) ->
  counter st' = S (counter st) ->
  name_after stem suffix st' i = name_after stem suffix st (S i).
Proof.
  intros Hf Hc. destruct i as [|i]; simpl.
  - rewrite Hf. f_equal. lia.
  - rewrite Hc. f_equal. lia.
Qed.

(** While the names tried are taken, the loop goes on: after [m]
    iterations it holds the [m]-th next name, and the counter and the
    number of checks have grown by [m]. *)
Lemma iterate_taken (m : nat) : forall st : loop_state,
  get_name secure_filename (filename st) = Ok (key st) ->
  (forall i, i < m ->
     probe secure_filename check (name_after stem suffix st i) = Ok true) ->
  (exists k, get_name secure_filename (name_after stem suffix st m) = Ok k) ->
  exists st',
    iterate secure_filename check m stem suffix st = Some st'
    /\ filename st' = name_after stem suffix st m
    /\ get_name secure_filename (filename st') = Ok (key st')
    /\ counter st' = counter st + m
    /\ List.length (probed st') = List.length (probed st) + m.
Proof.
  induction m as [|m IH]; intros st Hinv Htaken Hlast.
  - exists st. simpl. repeat split; auto; lia.
  - assert (Hc : check (key st) = Ok true).
    { specialize (Htaken 0 ltac:(lia)). simpl in Htaken.
      apply probe_ok in Htaken as (k & Hk & Hc). congruence. }
    assert (Hnext : exists k1,
               get_name secure_filename (candidate stem suffix (S (counter st)))
               = Ok k1).
    { destruct m as [|m].
      - destruct Hlast as (k & Hk). simpl in Hk.
        rewrite Nat.add_1_r in Hk. eauto.
      - specialize (Htaken 1 ltac:(lia)). simpl in Htaken.
        rewrite Nat.add_1_r in Htaken.
        apply probe_ok in Htaken as (k & Hk & _). eauto. }
    destruct Hnext as (k1 & Hk1).
    pose proof (step_taken st k1 Hc Hk1) as Hstep.
    set (st1 := {| filename := candidate stem suffix (S (counter st));
                   key := k1; counter := S (counter st);
                   probed := key st :: probed st |}) in *.
    assert (Hshift : forall i, name_after stem suffix st1 i
                               = name_after stem suffix st (S i))
      by (intros i; now apply name_after_step).
    destruct (IH st1) as (st' & Hit & Hf & Hg & Hcnt & Hlen).
    + exact Hk1.
    + intros i Hi. rewrite Hshift. apply Htaken. lia.
    + rewrite Hshift. exact Hlast.
    + exists st'. simpl. rewrite Hstep. rewrite Hshift in Hf.
      repeat split; auto.
      * rewrite Hcnt. simpl. lia.
      * rewrite Hlen. simpl. lia.
Qed.

Lemma while_iterate (m : nat) : forall (st st' : loop_state) (fuel : nat),
  iterate secure_filename check m stem suffix st = Some st' ->
  while_loop secure_filename check (m + fuel) stem suffix st
  = while_loop secure_filename check fuel stem suffix st'.
Proof.
  induction m as [|m IH]; intros st st' fuel H; simpl in *.
  - now injection H as ->.
  - destruct (loop_step secure_filename check stem suffix st); [|discriminate].
    now apply IH.
Qed.

Lemma while_running (fuel : nat) : forall st st' : loop_state,
  iterate secure_filename check fuel stem suffix st = Some st' ->
  while_loop secure_filename check fuel stem suffix st = None.
Proof.
  induction fuel as [|fuel IH]; intros st st' H; simpl in *; [reflexivity|].
  destruct (loop_step secure_filename check stem suffix st); [|discriminate].
  now apply (IH _ st').
Qed.

Lemma while_absent (st : loop_state) (fuel : nat) :
  check (key st) = Ok false ->
  while_loop secure_filename check (S fuel) stem suffix st
  = Some (Ok (filename st), key st :: probed st).
Proof. intros H. simpl. unfold loop_step. now rewrite H. Qed.

Lemma while_raise (st : loop_state) (fuel : nat) (e : exn) :
  check (key st) = Raise e ->
  while_loop secure_filename check (S fuel) stem suffix st
  = Some (Raise e, key st :: probed st).
Proof. intros H. simpl. unfold loop_step. now rewrite H. Qed.

(** The loop ends within [n + 1] checks when the [n]-th next name is
    free. *)
Lemma while_ends (n : nat) : forall st : loop_state,
  get_name secure_filename (filename st) = Ok (key st) ->
  probe secure_filename check (name_after stem suffix st n) = Ok false ->
  exists out, while_loop secure_filename check (S n) stem suffix st = Some out.
Proof.
  induction n as [|n IH]; intros st Hinv Hfree.
  - simpl in Hfree. apply probe_ok in Hfree as (k & Hk & Hc).
    assert (k = key st) as -> by congruence.
    rewrite (while_absent st 0 Hc). eauto.
  - destruct (check (key st)) as [[|]|e] eqn:Hc.
    + destruct (get_name secure_filename
                  (candidate stem suffix (S (counter st)))) as [k1|e] eqn:Hk1.
      * pose proof (step_taken st k1 Hc Hk1) as Hstep.
        change (while_loop secure_filename check (S (S n)) stem suffix st)
          with (match loop_step secure_filename check stem suffix st with
                | Finished r log => Some (r, log)
                | Running st' =>
                    while_loop secure_filename check (S n) stem suffix st'
                end).
        rewrite Hstep. apply IH; [exact Hk1|].
        rewrite (name_after_step st _ n); auto.
      * simpl. unfold loop_step. rewrite Hc, Hk1. eauto.
    + rewrite (while_absent st _ Hc). eauto.
    + rewrite (while_raise st _ e Hc). eauto.
Qed.

(** A returned name is the one the loop started with or a later
    candidate. *)
Lemma while_result (fuel : nat) :
  forall (st : loop_state) (r : string) (log : list string),
  while_loop secure_filename check fuel stem suffix st = Some (Ok r, log) ->
  r = filename st \/ exists n, counter st < n /\ r = candidate stem suffix n.
Proof.
  induction fuel as [|fuel IH]; intros st r log H; simpl in H; [discriminate|].
  unfold loop_step in H.
  destruct (check (key st)) as [[|]|e]; [| |discriminate].
  - destruct (get_name secure_filename
                (candidate stem suffix (S (counter st)))) as [k1|e];
      [|discriminate].
    apply IH in H as [H | (n & Hn & H)]; simpl in *; right.
    + exists (S (counter st)). split; [lia|exact H].
    + exists n. split; [lia|exact H].
  - injection H as <- _. now left.
Qed.

End Loop.

(** ** generate_new_filename *)

Section Generate.

Variable secure_filename : string -> string.
Variable check : string -> result bool.

Lemma name_after_initial (x key0 : string) (i : nat) :
  name_after (Path.stem (Path.parse x)) (Path.suffix (Path.parse x))
    (initial_state x key0) i
  = nth_name x i.
Proof. destruct i; reflexivity. Qed.

(** When the first [n] names are taken and the [n]-th has a key, the
    loop reaches the [n]-th name after [n] checks. *)
Lemma generate_reaches (x : string) (n : nat) (k : string) :
  (forall i, i < n -> probe secure_filename check (nth_name x i) = Ok true) ->
  get_name secure_filename (nth_name x n) = Ok k ->
  exists key0 st,
    get_name secure_filename x = Ok key0
    /\ iterate secure_filename check n (Path.stem (Path.parse x))
         (Path.suffix (Path.parse x)) (initial_state x key0) = Some st
    /\ filename st = nth_name x n /\ key st = k
    /\ counter st = n /\ List.length (probed st) = n.
Proof.
  intros Htaken Hk.
  assert (H0 : exists key0, get_name secure_filename x = Ok key0).
  { destruct n as [|n]; [eauto|].
    specialize (Htaken 0 ltac:(lia)).
    apply probe_ok in Htaken as (k0 & Hk0 & _). eauto. }
  destruct H0 as (key0 & Hkey0). exists key0.
  destruct (iterate_taken secure_filename check
              (Path.stem (Path.parse x)) (Path.suffix (Path.parse x))
              n (initial_state x key0))
    as (st & Hit & Hf & Hg & Hc & Hl).
  - exact Hkey0.
  - intros i Hi. rewrite name_after_initial. now apply Htaken.
  - rewrite name_after_initial. eauto.
  - rewrite name_after_initial in Hf. exists st.
    repeat split; auto. rewrite Hf in Hg. congruence.
Qed.

(** The outcome of the call is the outcome of the check on the first
    name that is not taken. *)
Lemma generate_stops (x : string) (n : nat) (k : string) (fuel : nat) :
  (forall i, i < n -> probe secure_filename check (nth_name x i) = Ok true) ->
  get_name secure_filename (nth_name x n) = Ok k ->
  n < fuel ->
  (check k = Ok false ->
   exists log, generate_new_filename secure_filename check fuel x
               = Some (Ok (nth_name x n), k :: log)
               /\ List.length log = n)
  /\ (forall e, check k = Raise e ->
      exists log, generate_new_filename secure_filename check fuel x
                  = Some (Raise e, k :: log)
                  /\ List.length log = n).
Proof.
  intros Htaken Hk Hfuel.
  destruct (generate_reaches x n k Htaken Hk)
    as (key0 & st & Hkey0 & Hit & Hf & Hkey & Hc & Hl).
  unfold generate_new_filename. rewrite Hkey0.
  replace fuel with (n + S (fuel - S n)) by lia.
  rewrite (while_iterate _ _ _ _ n _ st _ Hit).
  split.
  - intros Hfree. rewrite <- Hkey in Hfree.
    rewrite (while_absent _ _ _ _ st _ Hfree).
    exists (probed st). now rewrite Hf, Hkey.
  - intros e He. rewrite <- Hkey in He.
    rewrite (while_raise _ _ _ _ st _ e He).
    exists (probed st). now rewrite Hkey.
Qed.

End Generate.

(** With the modelled sanitiser and a check that finds every key taken,
    every name tried is taken. *)
Lemma always_taken (x key0 : string) (n : nat) :
  get_name Utils.secure_filename x = Ok key0 ->
  probe Utils.secure_filename all_taken (nth_name x n) = Ok true.
Proof.
  intros H. unfold probe. destruct n as [|n]; simpl.
  - now rewrite H.
  - rewrite candidate_key; [reflexivity| |].
    + apply stem_without_sep.
    + apply suffix_without_sep.
Qed.

(** * The specification's claims *)

(** C1. Collision resolution tries the desired name, then the candidates
    ["{stem}_{counter}{suffix}"] with counter 1, 2, ...; when the keys of
    the first [n] names are reported as existing and the key of the
    [n]-th as absent, the [n]-th name is returned after [n + 1] checks.
    In particular, with a check that is true exactly for ["a.png"] and
    ["a_1.png"], [generate_new_filename("a.png")] returns ["a_2.png"]. *)
Theorem generate_first_absent_candidate :
  (forall (secure_filename : string -> string) (check : string -> result bool)
          (x : string) (n fuel : nat),
      (forall i, i < n -> probe secure_filename check (nth_name x i) = Ok true) ->
      probe secure_filename check (nth_name x n) = Ok false ->
      n < fuel ->
      exists log,
        generate_new_filename secure_filename check fuel x
        = Some (Ok (nth_name x n), log)
        /\ List.length log = S n)
  /\ generate_new_filename Utils.secure_filename fake_exists 3 "a.png"
     = Some (Ok "a_2.png", ["a_2.png"; "a_1.png"; "a.png"]).
Proof.
  split; [|reflexivity].
  intros sf check x n fuel Htaken Hfree Hfuel.
  apply probe_ok in Hfree as (k & Hk & Hc).
  destruct (generate_stops sf check x n k fuel Htaken Hk Hfuel) as [H _].
  destruct (H Hc) as (log & Hg & Hl).
  exists (k :: log). split; [exact Hg|]. simpl. now rewrite Hl.
Qed.

Lemma generate_first_absent_candidate_witness :
  exists log,
    generate_new_filename Utils.secure_filename fake_exists 3 "a.png"
    = Some (Ok (nth_name "a.png" 2), log)
    /\ List.length log = 3.
Proof.
  apply (proj1 generate_first_absent_candidate
           Utils.secure_filename fake_exists "a.png" 2 3).
  - intros i Hi.
    destruct i as [|[|i]]; [reflexivity|reflexivity|lia].
  - reflexivity.
  - lia.
Defined.

(** C5. When the existence check reports the normalised key of [x] as
    absent, [generate_new_filename(x)] returns [x] unchanged and has
    made exactly one existence check, on that key. *)
Theorem generate_absent_unchanged
    (secure_filename : string -> string) (check : string -> result bool)
    (x k : string) (fuel : nat) :
  get_name secure_filename x = Ok k ->
  check k = Ok false ->
  generate_new_filename secure_filename check (S fuel) x = Some (Ok x, [k]).
Proof.
  intros Hk Hc. unfold generate_new_filename. rewrite Hk.
  rewrite while_absent; [reflexivity|exact Hc].
Qed.

Lemma generate_absent_unchanged_witness :
  generate_new_filename Utils.secure_filename (fun _ => Ok false) 1 "uploads/b.png"
  = Some (Ok "uploads/b.png", ["uploads/b.png"]).
Proof.
  apply (generate_absent_unchanged Utils.secure_filename (fun _ => Ok false)
           "uploads/b.png" "uploads/b.png" 0); reflexivity.
Defined.

(** C8. [generate_new_filename] ends as soon as the key of the input or of
    some candidate is reported absent: with the [n]-th name free, [n + 1]
    evaluations of the loop condition suffice.  When the key of the input
    and of every candidate is reported as existing, the loop never ends:
    whatever the number of iterations allowed, the call has not returned
    and has not raised, and the counter has reached that number. *)
Theorem generate_termination
    (secure_filename : string -> string) (check : string -> result bool)
    (x : string) :
  (forall n, probe secure_filename check (nth_name x n) = Ok false ->
     exists out, generate_new_filename secure_filename check (S n) x = Some out)
  /\ ((forall n, probe secure_filename check (nth_name x n) = Ok true) ->
      forall fuel,
        generate_new_filename secure_filename check fuel x = None
        /\ exists key0 st,
             get_name secure_filename x = Ok key0
             /\ iterate secure_filename check fuel (Path.stem (Path.parse x))
                  (Path.suffix (Path.parse x)) (initial_state x key0) = Some st
             /\ counter st = fuel).
Proof.
  split.
  - intros n Hfree. unfold generate_new_filename.
    destruct (get_name secure_filename x) as [key0|e] eqn:Hkey0; [|eauto].
    apply while_ends; [exact Hkey0|].
    now rewrite name_after_initial.
  - intros Htaken fuel.
    pose proof (Htaken fuel) as Hlast.
    apply probe_ok in Hlast as (k & Hk & _).
    destruct (generate_reaches secure_filename check x fuel k
                (fun i _ => Htaken i) Hk)
      as (key0 & st & Hkey0 & Hit & _ & _ & Hc & _).
    split.
    + unfold generate_new_filename. rewrite Hkey0.
      now apply (while_running _ _ _ _ fuel _ st).
    + eauto.
Qed.

Lemma generate_termination_witness :
  (exists out,
      generate_new_filename Utils.secure_filename fake_exists 3 "a.png" = Some out)
  /\ (forall fuel,
        generate_new_filename Utils.secure_filename all_taken fuel "a.png" = None).
Proof.
  split.
  - apply (proj1 (generate_termination Utils.secure_filename fake_exists "a.png") 2).
    reflexivity.
  - intros fuel.
    apply (proj2 (generate_termination Utils.secure_filename all_taken "a.png")).
    intros n. apply (always_taken "a.png" "a.png"). reflexivity.
Defined.

(** C10. When the normalised key of the input is reported as existing,
    the name that [generate_new_filename] returns is a candidate
    ["{stem}_{counter}{suffix}"] with counter at least 1, built from the
    stem and the suffix of the leaf only: it holds no separator, so it is
    a path of one segment and the directory prefix of the input is gone. *)
Theorem generate_drops_directory
    (secure_filename : string -> string) (check : string -> result bool)
    (x k r : string) (log : list string) (fuel : nat) :
  get_name secure_filename x = Ok k ->
  check k = Ok true ->
  generate_new_filename secure_filename check fuel x = Some (Ok r, log) ->
  (exists n, 1 <= n
             /\ r = candidate (Path.stem (Path.parse x))
                      (Path.suffix (Path.parse x)) n)
  /\ Str.has_sep r = false
  /\ Path.parse r = Path.mk "" [r].
Proof.
  intros Hk Hc Hg. unfold generate_new_filename in Hg. rewrite Hk in Hg.
  assert (Hn : exists n, 1 <= n
                 /\ r = candidate (Path.stem (Path.parse x))
                          (Path.suffix (Path.parse x)) n).
  { destruct fuel as [|fuel]; [discriminate Hg|].
    simpl in Hg. unfold loop_step in Hg. simpl in Hg. rewrite Hc in Hg.
    destruct (get_name secure_filename
                (candidate (Path.stem (Path.parse x))
                   (Path.suffix (Path.parse x)) 1)) as [k1|e];
      [|discriminate Hg].
    apply while_result in Hg as [Hg | (n & Hn & Hg)]; simpl in *.
    - exists 1. split; [lia|exact Hg].
    - exists n. split; [lia|exact Hg]. }
  split; [exact Hn|]. destruct Hn as (n & _ & ->).
  assert (Hs : Str.has_sep (candidate (Path.stem (Path.parse x))
                              (Path.suffix (Path.parse x)) n) = false)
    by (apply candidate_without_sep;
        [apply stem_without_sep|apply suffix_without_sep]).
  split; [exact Hs|].
  pose proof (candidate_solid (Path.stem (Path.parse x))
                (Path.suffix (Path.parse x)) n) as Hsolid.
  apply parse_leaf; [exact Hs| |];
    intros E; rewrite E in Hsolid; discriminate Hsolid.
Qed.

Lemma generate_drops_directory_witness :
  (exists n, 1 <= n
             /\ "a_1.png" = candidate (Path.stem (Path.parse "uploads/a.png"))
                              (Path.suffix (Path.parse "uploads/a.png")) n)
  /\ Str.has_sep "a_1.png" = false
  /\ Path.parse "a_1.png" = Path.mk "" ["a_1.png"].
Proof.
  apply (generate_drops_directory Utils.secure_filename uploads_taken
           "uploads/a.png" "uploads/a.png" "a_1.png"
           ["a_1.png"; "uploads/a.png"] 5); reflexivity.
Defined.

(** C3, as stated, fails: a [head_object] refused with the client error
    403 for ["a.png"] is not a confirmed not-found, yet
    [generate_new_filename("a.png")] raises nothing and returns
    ["a_1.png"]. *)
Lemma forbidden_head_not_propagated :
  head_forbidden "a.png" = Raise (ClientError "403")
  /\ generate_new_filename Utils.secure_filename
       (_check_object_exists head_forbidden) 2 "a.png"
     = Some (Ok "a_1.png", ["a_1.png"; "a.png"]).
Proof. split; reflexivity. Qed.

(** C3, amended. When [head_object] raises an exception that is not a
    client error of the backend (a connection failure, say) for the key of
    the first name that is not taken, [generate_new_filename] raises that
    very exception: the failed check is the last one made, none is
    repeated and no further candidate is tried. *)
Theorem check_failure_propagates
    (secure_filename : string -> string)
    (head_object : string -> result head_response)
    (x k : string) (n fuel : nat) (e : exn) :
  (forall i, i < n ->
     probe secure_filename (_check_object_exists head_object) (nth_name x i)
     = Ok true) ->
  get_name secure_filename (nth_name x n) = Ok k ->
  head_object k = Raise e ->
  (forall code, e <> ClientError code) ->
  n < fuel ->
  exists log,
    generate_new_filename secure_filename (_check_object_exists head_object) fuel x
    = Some (Raise e, k :: log)
    /\ List.length log = n.
Proof.
  intros Htaken Hk Hhead Hnot Hfuel.
  destruct (generate_stops secure_filename (_check_object_exists head_object)
              x n k fuel Htaken Hk Hfuel) as [_ H].
  apply H. unfold _check_object_exists. rewrite Hhead.
  destruct e as [msg|msg|code|what]; try reflexivity.
  now destruct (Hnot code).
Qed.

Lemma check_failure_propagates_witness :
  exists log,
    generate_new_filename Utils.secure_filename
      (_check_object_exists head_unreachable) 1 "a.png"
    = Some (Raise (TransportFailure "EndpointConnectionError"), "a.png" :: log)
    /\ List.length log = 0.
Proof.
  apply (check_failure_propagates Utils.secure_filename head_unreachable
           "a.png" "a.png" 0 1 (TransportFailure "EndpointConnectionError")).
  - intros i Hi. lia.
  - reflexivity.
  - reflexivity.
  - intros code. discriminate.
  - lia.
Defined.

(** C9. A client error of [head_object] with a code other than ["404"]
    makes [_check_object_exists] answer true; the loop of
    [generate_new_filename] then takes the name as taken and goes on to
    the next candidate (or raises what normalising that candidate raises),
    without raising the client error. *)
Theorem check_other_client_error_exists
    (head_object : string -> result head_response) (k code : string) :
  head_object k = Raise (ClientError code) ->
  code <> "404" ->
  _check_object_exists head_object k = Ok true
  /\ forall (secure_filename : string -> string) (stem suffix : string)
            (st : loop_state),
       key st = k ->
       loop_step secure_filename (_check_object_exists head_object) stem suffix st
       = match get_name secure_filename
                 (candidate stem suffix (S (counter st))) with
         | Ok k' =>
             Running {| filename := candidate stem suffix (S (counter st));
                        key := k'; counter := S (counter st);
                        probed := k :: probed st |}
         | Raise e => Finished (Raise e) (k :: probed st)
         end.
Proof.
  intros Hhead Hcode.
  assert (Hc : _check_object_exists head_object k = Ok true).
  { unfold _check_object_exists. rewrite Hhead.
    apply eqb_false in Hcode. now rewrite Hcode. }
  split; [exact Hc|].
  intros sf stem suffix st Hkey. unfold loop_step. rewrite Hkey, Hc.
  reflexivity.
Qed.

Lemma check_other_client_error_exists_witness :
  _check_object_exists head_forbidden "a.png" = Ok true.
Proof.
  apply (check_other_client_error_exists head_forbidden "a.png" "403").
  - reflexivity.
  - discriminate.
Defined.

(** C2, as stated, fails: the key of ["../my dir/a b.png"] keeps the
    segment [".."] and the space of ["my dir"]. *)
Lemma get_name_keeps_traversal :
  get_name Utils.secure_filename "../my dir/a b.png" = Ok "../my dir/a_b.png"
  /\ has_traversal_segment "../my dir/a_b.png" = true
  /\ only_allowed_characters "../my dir/a_b.png" = false.
Proof. repeat split; reflexivity. Qed.

(** C2, amended. Normalisation sanitises the leaf only: the key has the
    root and the directory segments of the input path, whatever they
    hold, and its leaf is the sanitised leaf of the input, which is made
    of allowed characters only and is no traversal segment. *)
Theorem get_name_sanitises_leaf_only (x k : string) :
  get_name Utils.secure_filename x = Ok k ->
  Path.root (Path.parse k) = Path.root (Path.parse x)
  /\ List.removelast (Path.tail (Path.parse k))
     = List.removelast (Path.tail (Path.parse x))
  /\ Path.name (Path.parse k) = Utils.secure_filename (Path.name (Path.parse x))
  /\ Utils.all_allowed (Path.name (Path.parse k)) = true
  /\ Path.name (Path.parse k) <> ".."
  /\ k = Path.to_str (Path.parse k).
Proof.
  intros H. pose proof (key_parse _ x k H) as Hp.
  apply get_name_ok in H as (_ & _ & _ & _ & Hk).
  rewrite Hp. simpl. rewrite List.removelast_last, name_replaced.
  repeat split; auto.
  - apply secure_filename_allowed.
  - apply strip_leading_not_dots.
Qed.

Lemma get_name_sanitises_leaf_only_witness :
  Path.root (Path.parse "../my dir/a_b.png") = Path.root (Path.parse "../my dir/a b.png")
  /\ List.removelast (Path.tail (Path.parse "../my dir/a_b.png"))
     = List.removelast (Path.tail (Path.parse "../my dir/a b.png"))
  /\ Path.name (Path.parse "../my dir/a_b.png")
     = Utils.secure_filename (Path.name (Path.parse "../my dir/a b.png"))
  /\ Utils.all_allowed (Path.name (Path.parse "../my dir/a_b.png")) = true
  /\ Path.name (Path.parse "../my dir/a_b.png") <> ".."
  /\ "../my dir/a_b.png" = Path.to_str (Path.parse "../my dir/a_b.png").
Proof.
  apply (get_name_sanitises_leaf_only "../my dir/a b.png" "../my dir/a_b.png").
  reflexivity.
Defined.

(** C6. Normalisation is idempotent: normalising the outcome of
    [get_name(x)] gives the outcome of [get_name(x)], be it a key or the
    exception raised. *)
Theorem get_name_idempotent (x : string) :
  bind (get_name Utils.secure_filename x) (get_name Utils.secure_filename)
  = get_name Utils.secure_filename x.
Proof.
  destruct (get_name Utils.secure_filename x) as [k|e] eqn:H; simpl;
    [|reflexivity].
  apply (get_name_fixed Utils.secure_filename x k);
    [exact secure_filename_idempotent|exact H].
Qed.

(** C4, as stated, fails: with empty credentials and an empty bucket
    name, and a client factory that accepts its arguments, the
    constructor returns an instance. *)
Lemma init_accepts_missing_credentials :
  AWS_ACCESS_KEY_ID empty_settings = ""
  /\ AWS_SECRET_ACCESS_KEY empty_settings = ""
  /\ AWS_S3_BUCKET_NAME empty_settings = ""
  /\ failure (__init__ client_args (Some lazy_client) empty_settings) = None.
Proof. repeat split; reflexivity. Qed.

(** C4, amended. Construction raises, and yields no instance, when
    [boto3] is not installed and when the endpoint begins with ["http"].
    Otherwise it yields an instance unless [boto3.client] raises, to
    which the credentials are handed as they are; the constructor checks
    neither the credentials nor the bucket name, and the bucket name has
    no bearing on whether it fails. *)
Theorem init_failures
    (S3Client : Type) (boto3 : option (client_args -> result S3Client))
    (self : Settings) :
  (boto3 = None ->
   __init__ S3Client boto3 self
   = Raise (AssertionError "'boto3' is not installed"))
  /\ (Str.startswith "http" (AWS_S3_ENDPOINT_URL self) = true ->
      exists msg, __init__ S3Client boto3 self = Raise (AssertionError msg))
  /\ (forall client,
        boto3 = Some client ->
        Str.startswith "http" (AWS_S3_ENDPOINT_URL self) = false ->
        let http_scheme := if AWS_S3_USE_SSL self then "https" else "http" in
        let url := http_scheme +:+ "://" +:+ AWS_S3_ENDPOINT_URL self in
        __init__ S3Client boto3 self
        = bind (client {| service_name := "s3"; endpoint_url := url;
                          use_ssl := AWS_S3_USE_SSL self;
                          aws_access_key_id := AWS_ACCESS_KEY_ID self;
                          aws_secret_access_key := AWS_SECRET_ACCESS_KEY self |})
            (fun s3 => Ok {| settings := self; _http_scheme := http_scheme;
                             _url := url; _s3 := s3 |}))
  /\ (forall bucket,
        failure (__init__ S3Client boto3 (with_bucket self bucket))
        = failure (__init__ S3Client boto3 self)).
Proof.
  repeat split.
  - intros ->. reflexivity.
  - intros H. unfold __init__. rewrite H. destruct boto3; eauto.
  - intros client -> H. unfold __init__. now rewrite H.
  - intros bucket. unfold __init__, with_bucket; simpl.
    destruct boto3 as [client|]; [|reflexivity].
    destruct (Str.startswith "http" (AWS_S3_ENDPOINT_URL self)); [reflexivity|].
    destruct (client _); reflexivity.
Qed.

Lemma init_failures_witness :
  exists msg,
    __init__ client_args (Some lazy_client)
      (with_bucket
         {| AWS_ACCESS_KEY_ID := "id"; AWS_SECRET_ACCESS_KEY := "secret";
            AWS_S3_BUCKET_NAME := ""; AWS_S3_ENDPOINT_URL := "https://s3.example.com";
            AWS_S3_USE_SSL := true; AWS_DEFAULT_ACL := "";
            AWS_QUERYSTRING_AUTH := false; AWS_S3_CUSTOM_DOMAIN := "" |}
         "bucket")
    = Raise (AssertionError msg).
Proof.
  apply (proj1 (proj2 (init_failures client_args (Some lazy_client) _))).
  reflexivity.
Defined.

(** C7. [write] uploads the whole content under the key [get_name(name)],
    with the content type guessed from that key, or
    ["application/octet-stream"] when none is guessed, and returns that
    key; the object replaces whatever the bucket held at that key, with no
    existence check, and no other key is touched. *)
Theorem write_uploads_under_key
    (secure_filename : string -> string) (guess_type : string -> option string)
    (fault : string -> option exn) (self : Settings)
    (bucket : gmap string s3_object) (file : BinaryIO) (name key : string) :
  get_name secure_filename name = Ok key ->
  fault key = None ->
  exists (obj : s3_object) (file' : BinaryIO),
    write secure_filename guess_type fault self bucket file name
    = (Ok key, <[key := obj]> bucket, file')
    /\ Body obj = content file
    /\ ACL obj = AWS_DEFAULT_ACL self
    /\ (forall t, guess_type key = Some t -> t <> "" -> ContentType obj = t)
    /\ (guess_type key = None \/ guess_type key = Some "" ->
        ContentType obj = "application/octet-stream")
    /\ (<[key := obj]> bucket) !! key = Some obj
    /\ (forall k', k' <> key -> (<[key := obj]> bucket) !! k' = bucket !! k').
Proof.
  intros Hk Hf.
  exists {| Body := content file;
            ContentType := content_type_or_default (guess_type key);
            ACL := AWS_DEFAULT_ACL self |}.
  exists {| content := content file;
            position := Nat.max 0 (List.length (content file)) |}.
  split; [|split; [|split; [|split; [|split; [|split]]]]].
  - unfold write, upload_fileobj. now rewrite Hk, Hf.
  - reflexivity.
  - reflexivity.
  - intros t Ht Hne. simpl. rewrite Ht. simpl.
    apply eqb_false in Hne. now rewrite Hne.
  - intros [Hg | Hg]; simpl; now rewrite Hg.
  - apply lookup_insert_eq.
  - intros k' Hne. now apply lookup_insert_ne.
Qed.

Lemma write_uploads_under_key_witness :
  exists (obj : s3_object) (file' : BinaryIO),
    write Utils.secure_filename guess_png no_fault empty_settings two_objects
      {| content := [Byte.x89; Byte.x50]; position := 1 |} "uploads/my file.png"
    = (Ok "uploads/my_file.png", <["uploads/my_file.png" := obj]> two_objects,
       file')
    /\ Body obj = [Byte.x89; Byte.x50]
    /\ ContentType obj = "image/png".
Proof.
  destruct (write_uploads_under_key Utils.secure_filename guess_png no_fault
              empty_settings two_objects
              {| content := [Byte.x89; Byte.x50]; position := 1 |}
              "uploads/my file.png" "uploads/my_file.png" eq_refl eq_refl)
    as (obj & file' & Hw & Hb & _ & Ht & _).
  exists obj, file'. split; [exact Hw|]. split; [exact Hb|].
  apply Ht; [reflexivity|discriminate].
Defined.

(** * Runs of the model on concrete inputs *)

Example parse_drops_empty_and_dot_segments :
  Path.parse "//a/./b//c.tar.gz" = Path.mk "//" ["a"; "b"; "c.tar.gz"].
Proof. reflexivity. Qed.

Example to_str_keeps_dot_dot :
  Path.to_str (Path.parse "///x/../y/") = "/x/../y".
Proof. reflexivity. Qed.

Example stem_and_suffix :
  Path.stem (Path.parse "a/c.tar.gz") = "c.tar"
  /\ Path.suffix (Path.parse "a/c.tar.gz") = ".gz"
  /\ Path.suffix (Path.parse ".bashrc") = ""
  /\ Path.suffix (Path.parse "a.") = "".
Proof. repeat split; reflexivity. Qed.

Example get_name_plain :
  get_name Utils.secure_filename "uploads/my file.png" = Ok "uploads/my_file.png".
Proof. reflexivity. Qed.

Example get_name_empty :
  get_name Utils.secure_filename "" = Raise (ValueError "has an empty name").
Proof. reflexivity. Qed.

Example get_name_unsafe_leaf :
  get_name Utils.secure_filename "a/.." = Raise (ValueError "Invalid name").
Proof. reflexivity. Qed.

Example exists_in_bucket :
  let bucket : gmap string s3_object :=
    <["a.png" := {| Body := []; ContentType := "image/png"; ACL := "" |}]> ∅ in
  _check_object_exists (head_of_bucket bucket) "a.png" = Ok true
  /\ _check_object_exists (head_of_bucket bucket) "b.png" = Ok false.
Proof. split; vm_compute; reflexivity. Qed.

Example generate_unreachable :
  generate_new_filename Utils.secure_filename
    (_check_object_exists head_unreachable) 2 "a.png"
  = Some (Raise (TransportFailure "EndpointConnectionError"), ["a.png"]).
Proof. reflexivity. Qed.

(** * Further properties of the module *)

(** ** Outcomes of generate_new_filename *)

Section Outcomes.

Variable secure_filename : string -> string.
Variable check : string -> result bool.
Variables stem suffix : string.

Lemma probe_held (st : loop_state) :
  get_name secure_filename (filename st) = Ok (key st) ->
  probe secure_filename check (filename st) = check (key st).
Proof. intros H. unfold probe. now rewrite H. Qed.

(** Whatever way the loop ends, the names before the last one tried were
    taken, and the outcome is that of the check on the last one. *)
Lemma while_outcome (fuel : nat) :
  forall (st : loop_state) (out : result string) (log : list string),
  get_name secure_filename (filename st) = Ok (key st) ->
  while_loop secure_filename check fuel stem suffix st = Some (out, log) ->
  exists m,
    (forall i, i < m ->
       probe secure_filename check (name_after stem suffix st i) = Ok true)
    /\ match out with
       | Ok r =>
           m < fuel
           /\ r = name_after stem suffix st m
           /\ probe secure_filename check (name_after stem suffix st m) = Ok false
           /\ List.length log = List.length (probed st) + S m
       | Raise e =>
           probe secure_filename check (name_after stem suffix st m) = Raise e
       end.
Proof.
  induction fuel as [|fuel IH]; intros st out log Hinv H; simpl in H;
    [discriminate|].
  pose proof (probe_held st Hinv) as Hp.
  unfold loop_step in H.
  destruct (check (key st)) as [[|]|e] eqn:Hc.
  - destruct (get_name secure_filename
                (candidate stem suffix (S (counter st)))) as [k1|e] eqn:Hk1.
    + apply IH in H as (m & Htaken & Hout); [|exact Hk1].
      assert (Hshift : forall i,
                 name_after stem suffix
                   {| filename := candidate stem suffix (S (counter st));
                      key := k1; counter := S (counter st);
                      probed := key st :: probed st |} i
                 = name_after stem suffix st (S i))
        by (intros i; now apply name_after_step).
      exists (S m). split.
      * intros [|i] Hi; [exact Hp|]. rewrite <- Hshift. apply Htaken. lia.
      * destruct out as [r|e]; rewrite <- Hshift; [|exact Hout].
        destruct Hout as (Hm & Hr & Hfree & Hlen). repeat split; auto; [lia|].
        rewrite Hlen. simpl. lia.
    + injection H as <- <-. exists 1. split.
      * intros i Hi. assert (i = 0) as -> by lia. exact Hp.
      * simpl. rewrite Nat.add_1_r. unfold probe. now rewrite Hk1.
  - injection H as <- <-. exists 0. split.
    + intros i Hi. lia.
    + simpl. repeat split; auto; lia.
  - injection H as <- <-. exists 0. split.
    + intros i Hi. lia.
    + exact Hp.
Qed.

End Outcomes.

(** X1. A name returned by [generate_new_filename] is the first free one:
    it is the [n]-th name tried for some [n], the check reported its key
    absent and the keys of all names before it existing, and [n + 1]
    checks were made. *)
Theorem generate_returns_first_free
    (secure_filename : string -> string) (check : string -> result bool)
    (x r : string) (log : list string) (fuel : nat) :
  generate_new_filename secure_filename check fuel x = Some (Ok r, log) ->
  exists n,
    n < fuel
    /\ r = nth_name x n
    /\ probe secure_filename check (nth_name x n) = Ok false
    /\ (forall i, i < n -> probe secure_filename check (nth_name x i) = Ok true)
    /\ List.length log = S n.
Proof.
  unfold generate_new_filename. intros H.
  destruct (get_name secure_filename x) as [key0|e] eqn:Hkey0; [|discriminate H].
  apply while_outcome in H as (m & Htaken & Hm & Hr & Hfree & Hlen);
    [|exact Hkey0].
  rewrite name_after_initial in Hr, Hfree.
  exists m. repeat split; auto.
Qed.

Lemma generate_returns_first_free_witness :
  exists n,
    n < 3
    /\ "a_2.png" = nth_name "a.png" n
    /\ probe Utils.secure_filename fake_exists (nth_name "a.png" n) = Ok false
    /\ (forall i, i < n ->
          probe Utils.secure_filename fake_exists (nth_name "a.png" i) = Ok true)
    /\ List.length ["a_2.png"; "a_1.png"; "a.png"] = S n.
Proof.
  apply (generate_returns_first_free Utils.secure_filename fake_exists
           "a.png" "a_2.png" ["a_2.png"; "a_1.png"; "a.png"] 3).
  reflexivity.
Defined.

(** X2. An exception raised by [generate_new_filename] is the one raised
    by normalising, or by checking the key of, the first name tried that
    was not reported as existing; the function raises nothing of its
    own. *)
Theorem generate_raises_from_probe
    (secure_filename : string -> string) (check : string -> result bool)
    (x : string) (e : exn) (log : list string) (fuel : nat) :
  generate_new_filename secure_filename check fuel x = Some (Raise e, log) ->
  exists n,
    (forall i, i < n -> probe secure_filename check (nth_name x i) = Ok true)
    /\ probe secure_filename check (nth_name x n) = Raise e.
Proof.
  unfold generate_new_filename. intros H.
  destruct (get_name secure_filename x) as [key0|e0] eqn:Hkey0.
  - apply while_outcome in H as (m & Htaken & Hraise); [|exact Hkey0].
    rewrite name_after_initial in Hraise.
    exists m. split; [|exact Hraise].
    intros i Hi. rewrite <- (name_after_initial x key0). now apply Htaken.
  - injection H as <- _. exists 0. split; [intros i Hi; lia|].
    simpl. unfold probe. now rewrite Hkey0.
Qed.

Lemma generate_raises_from_probe_witness :
  exists n,
    (forall i, i < n ->
       probe Utils.secure_filename (_check_object_exists head_unreachable)
         (nth_name "a.png" i) = Ok true)
    /\ probe Utils.secure_filename (_check_object_exists head_unreachable)
         (nth_name "a.png" n)
       = Raise (TransportFailure "EndpointConnectionError").
Proof.
  apply (generate_raises_from_probe Utils.secure_filename
           (_check_object_exists head_unreachable) "a.png"
           (TransportFailure "EndpointConnectionError") ["a.png"] 2).
  reflexivity.
Defined.

(** X3. [_check_object_exists] answers false exactly when [head_object]
    raises the client error 404, raises exactly the exceptions of
    [head_object] that are not client errors, and answers true in every
    other case. *)
Theorem check_object_exists_cases
    (head_object : string -> result head_response) (k : string) :
  (_check_object_exists head_object k = Ok false
   <-> head_object k = Raise (ClientError "404"))
  /\ (forall e, _check_object_exists head_object k = Raise e
                <-> head_object k = Raise e /\ forall code, e <> ClientError code)
  /\ (_check_object_exists head_object k = Ok true
      <-> (exists r, head_object k = Ok r)
          \/ exists code, code <> "404" /\ head_object k = Raise (ClientError code)).
Proof.
  unfold _check_object_exists.
  destruct (head_object k) as [r|[msg|msg|code|what]] eqn:Hh.
  - split; [|split].
    + split; discriminate.
    + intros e. split; [discriminate|]. now intros [[=] _].
    + split; [eauto|reflexivity].
  - split; [|split].
    + split; discriminate.
    + intros e. split.
      * intros [= <-]. split; [reflexivity|discriminate].
      * now intros [[= <-] _].
    + split; [discriminate|]. intros [(r & [=]) | (c & _ & [=])].
  - split; [|split].
    + split; discriminate.
    + intros e. split.
      * intros [= <-]. split; [reflexivity|discriminate].
      * now intros [[= <-] _].
    + split; [discriminate|]. intros [(r & [=]) | (c & _ & [=])].
  - destruct (Str.eqb code "404") eqn:Hcode.
    + apply eqb_true in Hcode as ->. split; [|split].
      * split; reflexivity.
      * intros e. split; [discriminate|].
        intros [[= <-] Hn]. now destruct (Hn "404").
      * split; [discriminate|].
        intros [(r & [=]) | (c & Hc & [= <-])]. now destruct Hc.
    + apply eqb_false in Hcode. split; [|split].
      * split; [discriminate|]. intros [= ->]. now destruct Hcode.
      * intros e. split; [discriminate|].
        intros [[= <-] Hn]. now destruct (Hn code).
      * split; [|reflexivity]. intros _. right. eauto.
  - split; [|split].
    + split; discriminate.
    + intros e. split.
      * intros [= <-]. split; [reflexivity|discriminate].
      * now intros [[= <-] _].
    + split; [discriminate|]. intros [(r & [=]) | (c & _ & [=])].
Qed.

(** ** Operations on an in-memory bucket *)

Lemma check_bucket_present (bucket : gmap string s3_object) (k : string)
    (o : s3_object) :
  bucket !! k = Some o ->
  _check_object_exists (head_of_bucket bucket) k = Ok true.
Proof. intros H. unfold _check_object_exists, head_of_bucket. now rewrite H. Qed.

Lemma check_bucket_absent (bucket : gmap string s3_object) (k : string) :
  bucket !! k = None <->
  _check_object_exists (head_of_bucket bucket) k = Ok false.
Proof.
  unfold _check_object_exists, head_of_bucket.
  destruct (bucket !! k); split; try reflexivity; discriminate.
Qed.

Lemma write_ok (secure_filename : string -> string)
    (guess_type : string -> option string) (fault : string -> option exn)
    (self : Settings) (bucket : gmap string s3_object) (file : BinaryIO)
    (name key : string) :
  get_name secure_filename name = Ok key ->
  fault key = None ->
  write secure_filename guess_type fault self bucket file name
  = (Ok key,
     <[key := {| Body := content file;
                 ContentType := content_type_or_default (guess_type key);
                 ACL := AWS_DEFAULT_ACL self |}]> bucket,
     {| content := content file;
        position := Nat.max 0 (List.length (content file)) |}).
Proof.
  intros Hk Hf. unfold write, upload_fileobj. now rewrite Hk, Hf.
Qed.

Lemma delete_ok (secure_filename : string -> string)
    (fault : string -> option exn) (bucket : gmap string s3_object)
    (name key : string) :
  get_name secure_filename name = Ok key ->
  fault key = None ->
  Storage.delete secure_filename fault bucket name
  = (Ok tt, base.delete key bucket).
Proof.
  intros Hk Hf. unfold Storage.delete, Storage.delete_object.
  now rewrite Hk, Hf.
Qed.

(** X4. After [write(file, name)], [get_size(name)] is the number of
    bytes of the file, whatever the read position of the file was and
    whatever the bucket held before. *)
Theorem write_then_get_size
    (secure_filename : string -> string) (guess_type : string -> option string)
    (fault : string -> option exn) (self : Settings)
    (bucket : gmap string s3_object) (file : BinaryIO) (name key : string) :
  get_name secure_filename name = Ok key ->
  fault key = None ->
  get_size secure_filename
    (head_of_bucket
       (snd (fst (write secure_filename guess_type fault self bucket file name))))
    name
  = Ok (List.length (content file)).
Proof.
  intros Hk Hf. rewrite (write_ok _ _ _ _ _ _ _ _ Hk Hf). simpl.
  unfold get_size, head_of_bucket. rewrite Hk. simpl.
  now rewrite lookup_insert_eq.
Qed.

Lemma write_then_get_size_witness :
  get_size Utils.secure_filename
    (head_of_bucket
       (snd (fst (write Utils.secure_filename guess_png no_fault empty_settings
                    two_objects
                    {| content := [Byte.x89; Byte.x50; Byte.x4e]; position := 2 |}
                    "a.png"))))
    "a.png"
  = Ok (List.length [Byte.x89; Byte.x50; Byte.x4e]).
Proof.
  apply (write_then_get_size Utils.secure_filename guess_png no_fault
           empty_settings two_objects
           {| content := [Byte.x89; Byte.x50; Byte.x4e]; position := 2 |}
           "a.png" "a.png"); reflexivity.
Defined.

(** X5. After [write(file, name)] and then [delete(name)] the object is
    gone: [get_size(name)] raises the client error 404 of [head_object],
    which it does not catch, and the existence check on the key answers
    false. *)
Theorem write_delete_get_size
    (secure_filename : string -> string) (guess_type : string -> option string)
    (fault : string -> option exn) (self : Settings)
    (bucket : gmap string s3_object) (file : BinaryIO) (name key : string) :
  get_name secure_filename name = Ok key ->
  fault key = None ->
  let written :=
    snd (fst (write secure_filename guess_type fault self bucket file name)) in
  let deleted := snd (Storage.delete secure_filename fault written name) in
  get_size secure_filename (head_of_bucket deleted) name
  = Raise (ClientError "404")
  /\ _check_object_exists (head_of_bucket deleted) key = Ok false.
Proof.
  intros Hk Hf written deleted. subst written deleted.
  rewrite (write_ok _ _ _ _ _ _ _ _ Hk Hf). simpl.
  rewrite (delete_ok _ _ _ _ _ Hk Hf). simpl.
  split.
  - unfold get_size, head_of_bucket. rewrite Hk. simpl.
    now rewrite lookup_delete_eq.
  - apply check_bucket_absent, lookup_delete_eq.
Qed.

Lemma write_delete_get_size_witness :
  let written :=
    snd (fst (write Utils.secure_filename guess_png no_fault empty_settings
                two_objects {| content := [Byte.x89]; position := 0 |} "b.png")) in
  let deleted := snd (Storage.delete Utils.secure_filename no_fault written "b.png") in
  get_size Utils.secure_filename (head_of_bucket deleted) "b.png"
  = Raise (ClientError "404")
  /\ _check_object_exists (head_of_bucket deleted) "b.png" = Ok false.
Proof.
  apply (write_delete_get_size Utils.secure_filename guess_png no_fault
           empty_settings two_objects {| content := [Byte.x89]; position := 0 |}
           "b.png" "b.png"); reflexivity.
Defined.

(** X6. [delete(name)] frees the name: afterwards
    [generate_new_filename(name)] returns [name] itself after a single
    existence check. *)
Theorem delete_frees_name
    (secure_filename : string -> string) (fault : string -> option exn)
    (bucket : gmap string s3_object) (name key : string) (fuel : nat) :
  get_name secure_filename name = Ok key ->
  fault key = None ->
  generate_new_filename secure_filename
    (_check_object_exists
       (head_of_bucket (snd (Storage.delete secure_filename fault bucket name))))
    (S fuel) name
  = Some (Ok name, [key]).
Proof.
  intros Hk Hf. rewrite (delete_ok _ _ _ _ _ Hk Hf). simpl.
  unfold generate_new_filename. rewrite Hk.
  rewrite while_absent; [reflexivity|].
  apply check_bucket_absent, lookup_delete_eq.
Qed.

Lemma delete_frees_name_witness :
  generate_new_filename Utils.secure_filename
    (_check_object_exists
       (head_of_bucket
          (snd (Storage.delete Utils.secure_filename no_fault two_objects "a.png"))))
    1 "a.png"
  = Some (Ok "a.png", ["a.png"]).
Proof.
  apply (delete_frees_name Utils.secure_filename no_fault two_objects
           "a.png" "a.png" 0); reflexivity.
Defined.

(** X7. After [write(file, name)] the name is taken: a name that
    [generate_new_filename(name)] then returns is a candidate with counter
    at least 1 whose key is not in the bucket, so it differs from the key
    just written. *)
Theorem write_takes_name
    (secure_filename : string -> string) (guess_type : string -> option string)
    (fault : string -> option exn) (self : Settings)
    (bucket : gmap string s3_object) (file : BinaryIO) (name key r : string)
    (log : list string) (fuel : nat) :
  get_name secure_filename name = Ok key ->
  fault key = None ->
  let written :=
    snd (fst (write secure_filename guess_type fault self bucket file name)) in
  generate_new_filename secure_filename
    (_check_object_exists (head_of_bucket written)) fuel name
  = Some (Ok r, log) ->
  exists n k',
    1 <= n /\ r = nth_name name n
    /\ get_name secure_filename r = Ok k'
    /\ written !! k' = None /\ k' <> key.
Proof.
  intros Hk Hf written. subst written.
  rewrite (write_ok _ _ _ _ _ _ _ _ Hk Hf). simpl.
  set (written := <[key := _]> bucket).
  assert (Hin : exists o, written !! key = Some o)
    by (eexists; apply lookup_insert_eq).
  destruct Hin as (o & Hin).
  unfold generate_new_filename. rewrite Hk. intros H.
  apply while_outcome in H as (m & Htaken & Hm & Hr & Hfree & Hlen);
    [|exact Hk].
  rewrite name_after_initial in Hr, Hfree.
  apply probe_ok in Hfree as (k' & Hk' & Hc).
  apply check_bucket_absent in Hc.
  exists m, k'. rewrite Hr. repeat split; auto.
  - destruct m as [|m]; [|lia]. simpl in Hk'.
    assert (k' = key) as -> by congruence. congruence.
  - intros ->. congruence.
Qed.

Lemma write_takes_name_witness :
  exists n k',
    1 <= n /\ "a_2.png" = nth_name "a.png" n
    /\ get_name Utils.secure_filename "a_2.png" = Ok k'
    /\ snd (fst (write Utils.secure_filename guess_png no_fault empty_settings
                   two_objects {| content := []; position := 0 |} "a.png"))
       !! k' = None
    /\ k' <> "a.png".
Proof.
  apply (write_takes_name Utils.secure_filename guess_png no_fault
           empty_settings two_objects {| content := []; position := 0 |}
           "a.png" "a.png" "a_2.png" ["a_2.png"; "a_1.png"; "a.png"] 4);
    [reflexivity | reflexivity | vm_compute; reflexivity].
Defined.

(** X8. Two logical names with the same key share one object: writing
    under the second replaces what was written under the first, and the
    bucket ends as if only the second write had happened. *)
Theorem write_same_key_overwrites
    (secure_filename : string -> string) (guess_type : string -> option string)
    (fault : string -> option exn) (self : Settings)
    (bucket : gmap string s3_object) (file1 file2 : BinaryIO)
    (name1 name2 key : string) :
  get_name secure_filename name1 = Ok key ->
  get_name secure_filename name2 = Ok key ->
  fault key = None ->
  let first :=
    snd (fst (write secure_filename guess_type fault self bucket file1 name1)) in
  snd (fst (write secure_filename guess_type fault self first file2 name2))
  = snd (fst (write secure_filename guess_type fault self bucket file2 name2)).
Proof.
  intros H1 H2 Hf first. subst first.
  rewrite (write_ok _ _ _ _ _ _ _ _ H1 Hf). simpl.
  rewrite !(write_ok _ _ _ _ _ _ _ _ H2 Hf). simpl.
  apply insert_insert_eq.
Qed.

Lemma write_same_key_overwrites_witness :
  let first :=
    snd (fst (write Utils.secure_filename guess_png no_fault empty_settings
                two_objects {| content := [Byte.x01]; position := 0 |}
                "uploads/my file.png")) in
  snd (fst (write Utils.secure_filename guess_png no_fault empty_settings
              first {| content := [Byte.x02]; position := 0 |}
              "uploads/my_file.png"))
  = snd (fst (write Utils.secure_filename guess_png no_fault empty_settings
                two_objects {| content := [Byte.x02]; position := 0 |}
                "uploads/my_file.png")).
Proof.
  apply (write_same_key_overwrites Utils.secure_filename guess_png no_fault
           empty_settings two_objects
           {| content := [Byte.x01]; position := 0 |}
           {| content := [Byte.x02]; position := 0 |}
           "uploads/my file.png" "uploads/my_file.png" "uploads/my_file.png");
    reflexivity.
Defined.

(** X9. [write] raises exactly the exception of normalising the name or,
    when the name has a key, the exception of the upload: it adds no
    failure of its own and hides none.  When normalising fails no upload
    is attempted, whatever the transport would do: the bucket is the one
    it started with, and the file has already been rewound. *)
Theorem write_raises_iff
    (secure_filename : string -> string) (guess_type : string -> option string)
    (fault : string -> option exn) (self : Settings)
    (bucket : gmap string s3_object) (file : BinaryIO) (name : string)
    (e : exn) :
  (fst (fst (write secure_filename guess_type fault self bucket file name))
   = Raise e
   <-> get_name secure_filename name = Raise e
       \/ exists key, get_name secure_filename name = Ok key
                      /\ fault key = Some e)
  /\ (get_name secure_filename name = Raise e ->
      write secure_filename guess_type fault self bucket file name
      = (Raise e, bucket, {| content := content file; position := 0 |})).
Proof.
  unfold write, upload_fileobj.
  destruct (get_name secure_filename name) as [key|e0] eqn:Hk.
  - split; [|discriminate].
    destruct (fault key) as [e1|] eqn:Hf; simpl.
    + split.
      * intros [= <-]. right. eauto.
      * intros [[=] | (k & [= <-] & Hfk)]. congruence.
    + split; [discriminate|].
      intros [[=] | (k & [= <-] & Hfk)]. congruence.
  - simpl. split.
    + split; [intros [= <-]; now left|].
      intros [[= <-] | (k & [=] & _)]. reflexivity.
    + intros [= <-]. reflexivity.
Qed.

Lemma write_raises_iff_witness :
  fst (fst (write Utils.secure_filename guess_png upload_times_out
              empty_settings two_objects
              {| content := [Byte.x01]; position := 1 |} "a.png"))
  = Raise (TransportFailure "ReadTimeoutError")
  /\ write Utils.secure_filename guess_png upload_times_out empty_settings
       two_objects {| content := [Byte.x01]; position := 1 |} "uploads/.."
     = (Raise (ValueError "Invalid name"), two_objects,
        {| content := [Byte.x01]; position := 0 |}).
Proof.
  split.
  - apply (proj1 (write_raises_iff Utils.secure_filename guess_png
                    upload_times_out empty_settings two_objects
                    {| content := [Byte.x01]; position := 1 |} "a.png"
                    (TransportFailure "ReadTimeoutError"))).
    right. exists "a.png". split; reflexivity.
  - apply (proj2 (write_raises_iff Utils.secure_filename guess_png
                    upload_times_out empty_settings two_objects
                    {| content := [Byte.x01]; position := 1 |} "uploads/.."
                    (ValueError "Invalid name"))).
    reflexivity.
Defined.

(** X10. [delete(name)] removes the object at the key of [name] and no
    other, makes no existence check, and deleting again is no error and
    changes nothing. *)
Theorem delete_removes_key_only
    (secure_filename : string -> string) (fault : string -> option exn)
    (bucket : gmap string s3_object) (name key : string) :
  get_name secure_filename name = Ok key ->
  fault key = None ->
  let deleted := snd (Storage.delete secure_filename fault bucket name) in
  fst (Storage.delete secure_filename fault bucket name) = Ok tt
  /\ deleted !! key = None
  /\ (forall k', k' <> key -> deleted !! k' = bucket !! k')
  /\ Storage.delete secure_filename fault deleted name = (Ok tt, deleted).
Proof.
  intros Hk Hf deleted. subst deleted.
  rewrite !(delete_ok _ _ _ _ _ Hk Hf). simpl. repeat split.
  - apply lookup_delete_eq.
  - intros k' Hne. now apply lookup_delete_ne.
  - f_equal. apply delete_id, lookup_delete_eq.
Qed.

Lemma delete_removes_key_only_witness :
  let deleted := snd (Storage.delete Utils.secure_filename no_fault two_objects "a.png") in
  fst (Storage.delete Utils.secure_filename no_fault two_objects "a.png") = Ok tt
  /\ deleted !! "a.png" = None
  /\ (forall k', k' <> "a.png" -> deleted !! k' = two_objects !! k')
  /\ Storage.delete Utils.secure_filename no_fault deleted "a.png" = (Ok tt, deleted).
Proof.
  apply (delete_removes_key_only Utils.secure_filename no_fault two_objects
           "a.png" "a.png"); reflexivity.
Defined.

(** ** Locators *)

Lemma append_inv_head (a x y : string) : a +:+ x = a +:+ y -> x = y.
Proof.
  induction a as [|c a IH]; intros H; [exact H|].
  injection H as H. now apply IH.
Qed.

Lemma append_assoc (a b c : string) : (a +:+ b) +:+ c = a +:+ (b +:+ c).
Proof.
  induction a as [|x a IH]; [reflexivity|].
  change (String x ((a +:+ b) +:+ c) = String x (a +:+ (b +:+ c))).
  now rewrite IH.
Qed.

Lemma prefix_append (a b : string) : String.prefix a (a +:+ b) = true.
Proof.
  induction a as [|c a IH]; simpl; [now destruct b|].
  destruct (ascii_dec c c) as [_|Hne]; [exact IH|now destruct Hne].
Qed.

Section Locators.

Variable secure_filename : string -> string.
Variable S3Client : Type.
Variable generate_presigned_url : S3Client -> string -> string -> string -> result string.

(** Without presigning, the locator is a prefix fixed by the instance
    followed by the key. *)
Lemma get_path_plain (self : S3Storage S3Client) (name : string) :
  AWS_S3_CUSTOM_DOMAIN (settings self) <> ""
  \/ AWS_QUERYSTRING_AUTH (settings self) = false ->
  exists base,
    (forall name',
        get_path secure_filename S3Client generate_presigned_url self name'
        = bind (get_name secure_filename name')
            (fun key => Ok (_http_scheme self +:+ "://" +:+ base +:+ key))).
Proof.
  intros Hcfg. unfold get_path.
  destruct (Str.eqb (AWS_S3_CUSTOM_DOMAIN (settings self)) "") eqn:Hd; simpl.
  - destruct Hcfg as [Hcfg | Hq]; [apply eqb_true in Hd; now destruct Hcfg|].
    rewrite Hq.
    exists (AWS_S3_ENDPOINT_URL (settings self) +:+ "/"
            +:+ AWS_S3_BUCKET_NAME (settings self) +:+ "/").
    intros name'. destruct (get_name secure_filename name'); simpl; [|reflexivity].
    now rewrite !append_assoc.
  - exists (AWS_S3_CUSTOM_DOMAIN (settings self) +:+ "/").
    intros name'. destruct (get_name secure_filename name'); simpl; [|reflexivity].
    now rewrite !append_assoc.
Qed.

End Locators.

(** X11. Unless the locator is presigned (no custom domain and
    query-string authentication on), [get_path] separates keys: two
    names with the same locator have the same key. *)
Theorem get_path_separates_keys
    (secure_filename : string -> string) (S3Client : Type)
    (generate_presigned_url : S3Client -> string -> string -> string -> result string)
    (self : S3Storage S3Client) (name1 name2 url : string) :
  AWS_S3_CUSTOM_DOMAIN (settings self) <> ""
  \/ AWS_QUERYSTRING_AUTH (settings self) = false ->
  get_path secure_filename S3Client generate_presigned_url self name1 = Ok url ->
  get_path secure_filename S3Client generate_presigned_url self name2 = Ok url ->
  get_name secure_filename name1 = get_name secure_filename name2.
Proof.
  intros Hcfg H1 H2.
  destruct (get_path_plain secure_filename S3Client generate_presigned_url
              self name1 Hcfg) as (base & Hbase).
  rewrite Hbase in H1, H2.
  destruct (get_name secure_filename name1) as [k1|]; [|discriminate H1].
  destruct (get_name secure_filename name2) as [k2|]; [|discriminate H2].
  simpl in H1, H2. rewrite <- H2 in H1. injection H1 as H1.
  now do 3 apply append_inv_head in H1; subst.
Qed.

Lemma get_path_separates_keys_witness :
  get_name Utils.secure_filename "uploads/my file.png"
  = get_name Utils.secure_filename "uploads//my_file.png".
Proof.
  apply (get_path_separates_keys Utils.secure_filename client_args fake_presign
           plain_instance "uploads/my file.png" "uploads//my_file.png"
           "https://s3.example.com//uploads/my_file.png").
  - right. reflexivity.
  - reflexivity.
  - reflexivity.
Defined.

(** X12. An instance built by [__init__] gives, unless the locator is
    presigned, locators that begin with ["https://"] when
    [AWS_S3_USE_SSL] is set and with ["http://"] otherwise, and that end
    with the key. *)
Theorem get_path_scheme
    (secure_filename : string -> string) (S3Client : Type)
    (boto3 : option (client_args -> result S3Client))
    (generate_presigned_url : S3Client -> string -> string -> string -> result string)
    (config : Settings) (self : S3Storage S3Client) (name url : string) :
  __init__ S3Client boto3 config = Ok self ->
  AWS_S3_CUSTOM_DOMAIN config <> "" \/ AWS_QUERYSTRING_AUTH config = false ->
  get_path secure_filename S3Client generate_presigned_url self name = Ok url ->
  Str.startswith (if AWS_S3_USE_SSL config then "https://" else "http://") url
  = true
  /\ exists base key,
       get_name secure_filename name = Ok key /\ url = base +:+ key.
Proof.
  intros Hinit Hcfg Hpath.
  assert (Hself : settings self = config
                  /\ _http_scheme self
                     = if AWS_S3_USE_SSL config then "https" else "http").
  { unfold __init__ in Hinit. destruct boto3 as [client|]; [|discriminate].
    destruct (Str.startswith "http" (AWS_S3_ENDPOINT_URL config)); [discriminate|].
    destruct (client _); [|discriminate]. simpl in Hinit.
    injection Hinit as <-. split; reflexivity. }
  destruct Hself as (Hs & Hscheme).
  rewrite <- Hs in Hcfg.
  destruct (get_path_plain secure_filename S3Client generate_presigned_url
              self name Hcfg) as (base & Hbase).
  rewrite Hbase in Hpath.
  destruct (get_name secure_filename name) as [key|]; [|discriminate Hpath].
  simpl in Hpath. injection Hpath as <-. rewrite Hscheme. split.
  - unfold Str.startswith.
    destruct (AWS_S3_USE_SSL config).
    + change ("https" +:+ "://" +:+ base +:+ key)
        with ("https://" +:+ (base +:+ key)). apply prefix_append.
    + change ("http" +:+ "://" +:+ base +:+ key)
        with ("http://" +:+ (base +:+ key)). apply prefix_append.
  - exists ((if AWS_S3_USE_SSL config then "https" else "http")
            +:+ "://" +:+ base), key.
    split; [reflexivity|]. now rewrite !append_assoc.
Qed.

Lemma get_path_scheme_witness :
  Str.startswith "https://" "https://s3.example.com//uploads/my_file.png" = true
  /\ exists base key,
       get_name Utils.secure_filename "uploads/my file.png" = Ok key
       /\ "https://s3.example.com//uploads/my_file.png" = base +:+ key.
Proof.
  apply (get_path_scheme Utils.secure_filename client_args (Some lazy_client)
           fake_presign empty_settings plain_instance "uploads/my file.png"
           "https://s3.example.com//uploads/my_file.png").
  - reflexivity.
  - right. reflexivity.
  - reflexivity.
Defined.

(** X13. The key that [write] returns can stand for the name in later
    calls: with the modelled sanitiser, [get_path], [get_size], [delete]
    and [write] do on the key of a name what they do on the name. *)
Theorem key_stands_for_name
    (S3Client : Type)
    (generate_presigned_url : S3Client -> string -> string -> string -> result string)
    (self : S3Storage S3Client)
    (head_object : string -> result head_response)
    (guess_type : string -> option string) (fault : string -> option exn)
    (config : Settings) (bucket : gmap string s3_object) (file : BinaryIO)
    (name key : string) :
  get_name Utils.secure_filename name = Ok key ->
  get_path Utils.secure_filename S3Client generate_presigned_url self key
  = get_path Utils.secure_filename S3Client generate_presigned_url self name
  /\ get_size Utils.secure_filename head_object key
     = get_size Utils.secure_filename head_object name
  /\ Storage.delete Utils.secure_filename fault bucket key
     = Storage.delete Utils.secure_filename fault bucket name
  /\ write Utils.secure_filename guess_type fault config bucket file key
     = write Utils.secure_filename guess_type fault config bucket file name.
Proof.
  intros Hk.
  pose proof (get_name_fixed Utils.secure_filename name key
                secure_filename_idempotent Hk) as Hkk.
  unfold get_path, get_size, Storage.delete, write.
  rewrite Hk, Hkk. repeat split; reflexivity.
Qed.

Lemma key_stands_for_name_witness :
  get_path Utils.secure_filename client_args fake_presign plain_instance
    "uploads/my_file.png"
  = get_path Utils.secure_filename client_args fake_presign plain_instance
      "uploads/my file.png".
Proof.
  apply (key_stands_for_name client_args fake_presign plain_instance
           (head_of_bucket two_objects) guess_png no_fault empty_settings
           two_objects {| content := []; position := 0 |}
           "uploads/my file.png" "uploads/my_file.png").
  reflexivity.
Defined.

(** ** Candidates *)

Lemma length_append (a b : string) :
  String.length (a +:+ b) = String.length a + String.length b.
Proof.
  induction a as [|c a IH]; [reflexivity|].
  change (S (String.length (a +:+ b)) = S (String.length a + String.length b)).
  now rewrite IH.
Qed.

Lemma append_inv_tail (a b s : string) : a +:+ s = b +:+ s -> a = b.
Proof.
  intros H.
  assert (Hlen : String.length a = String.length b).
  { apply (f_equal String.length) in H. rewrite !length_append in H. lia. }
  revert b H Hlen. induction a as [|c a IH]; intros [|d b] H Hlen;
    try discriminate Hlen; [reflexivity|].
  change (String c (a +:+ s) = String d (b +:+ s)) in H.
  injection H as -> H. f_equal. apply IH; [exact H|].
  simpl in Hlen. lia.
Qed.

Lemma of_nat_inj (n m : nat) : Str.of_nat n = Str.of_nat m -> n = m.
Proof.
  unfold Str.of_nat. intros H.
  assert (Hnil : forall k, Nat.to_uint k <> Decimal.Nil).
  { intros k Hk. pose proof (DecimalNat.Unsigned.of_to k) as Hof.
    rewrite Hk in Hof. simpl in Hof. subst k. discriminate Hk. }
  apply (f_equal NilZero.uint_of_string) in H.
  rewrite !NilZero.usu in H by apply Hnil.
  injection H as H. now apply DecimalNat.Unsigned.to_uint_inj.
Qed.

(** X14. Candidates with different counters are different names: the loop
    of [generate_new_filename] never tries a name twice. *)
Theorem candidate_injective (stem suffix : string) (n m : nat) :
  candidate stem suffix n = candidate stem suffix m -> n = m.
Proof.
  unfold candidate. intros H.
  apply append_inv_head in H. apply append_inv_head in H.
  apply append_inv_tail in H. now apply of_nat_inj.
Qed.

Lemma candidate_injective_witness : 12 = 12.
Proof.
  apply (candidate_injective "a" ".png" 12 12). reflexivity.
Defined.

(** ** Keys of the candidates under the modelled sanitiser *)

Lemma collapse_before_underscore (a : string) :
  forall started gap, exists p,
    forall r, Utils.collapse started gap (a +:+ String "_" r)
              = p +:+ String "_" (Utils.collapse true false r).
Proof.
  induction a as [|c a IH]; intros started gap.
  - destruct (started && gap) eqn:Hsg.
    + exists "_". intros r.
      change ("" +:+ String "_" r) with (String "_" r).
      simpl. now rewrite Hsg.
    + exists "". intros r.
      change ("" +:+ String "_" r) with (String "_" r).
      simpl. now rewrite Hsg.
  - destruct (Utils.is_separator c) eqn:Hc.
    + destruct (IH started true) as (p & Hp). exists p. intros r.
      change (String c a +:+ String "_" r) with (String c (a +:+ String "_" r)).
      simpl. rewrite Hc. apply Hp.
    + destruct (IH true false) as (p & Hp).
      destruct (started && gap) eqn:Hsg.
      * exists (String "_" (String c p)). intros r.
        change (String c a +:+ String "_" r) with (String c (a +:+ String "_" r)).
        simpl. rewrite Hc, Hsg, Hp. reflexivity.
      * exists (String c p). intros r.
        change (String c a +:+ String "_" r) with (String c (a +:+ String "_" r)).
        simpl. rewrite Hc, Hsg, Hp. reflexivity.
Qed.

Lemma collapse_allowed_prefix (t r : string) :
  Utils.all_allowed t = true ->
  Utils.collapse true false (t +:+ r) = t +:+ Utils.collapse true false r.
Proof.
  induction t as [|c t IH]; intros H; [reflexivity|].
  simpl in H. apply andb_prop in H as [Hc Ht].
  change (String c t +:+ r) with (String c (t +:+ r)).
  simpl. rewrite (allowed_not_separator c Hc). simpl.
  rewrite (IH Ht). reflexivity.
Qed.

Lemma keep_allowed_app (a b : string) :
  Utils.keep_allowed (a +:+ b) = Utils.keep_allowed a +:+ Utils.keep_allowed b.
Proof.
  induction a as [|c a IH]; [reflexivity|].
  change (String c a +:+ b) with (String c (a +:+ b)).
  simpl. rewrite IH. now destruct (Utils.allowed c).
Qed.

Lemma strip_leading_before_underscore (a r : string) :
  Utils.strip_leading (a +:+ String "_" r)
  = Utils.strip_leading a +:+ String "_" r.
Proof.
  induction a as [|c a IH]; [reflexivity|].
  change (String c a +:+ String "_" r) with (String c (a +:+ String "_" r)).
  simpl. destruct (Ascii.eqb c "." || Ascii.eqb c "-"); [exact IH|reflexivity].
Qed.

Lemma digits_allowed (d : Decimal.uint) :
  Utils.all_allowed (NilEmpty.string_of_uint d) = true.
Proof. induction d; simpl; auto. Qed.

Lemma of_nat_allowed (n : nat) : Utils.all_allowed (Str.of_nat n) = true.
Proof.
  unfold Str.of_nat, NilZero.string_of_uint.
  destruct (Nat.to_uint n); try reflexivity; apply digits_allowed.
Qed.

(** The key of a candidate is a fixed prefix, the counter and a fixed
    suffix. *)
Lemma candidate_key_shape (stem suffix : string) :
  exists p q, forall n,
    Utils.secure_filename (candidate stem suffix n)
    = p +:+ String "_" (Str.of_nat n +:+ q).
Proof.
  destruct (collapse_before_underscore stem false false) as (p & Hp).
  exists (Utils.strip_leading (Utils.keep_allowed p)),
         (Utils.keep_allowed (Utils.collapse true false suffix)).
  intros n. unfold Utils.secure_filename, candidate.
  change (stem +:+ "_" +:+ Str.of_nat n +:+ suffix)
    with (stem +:+ String "_" (Str.of_nat n +:+ suffix)).
  rewrite Hp, (collapse_allowed_prefix _ _ (of_nat_allowed n)).
  rewrite keep_allowed_app.
  change (Utils.keep_allowed (String "_" (Str.of_nat n
                                +:+ Utils.collapse true false suffix)))
    with (String "_" (Utils.keep_allowed (Str.of_nat n
                                +:+ Utils.collapse true false suffix))).
  rewrite keep_allowed_app, (keep_allowed_fixed _ (of_nat_allowed n)).
  apply strip_leading_before_underscore.
Qed.

Lemma candidate_key_injective (stem suffix : string) (n m : nat) :
  Utils.secure_filename (candidate stem suffix n)
  = Utils.secure_filename (candidate stem suffix m) ->
  n = m.
Proof.
  destruct (candidate_key_shape stem suffix) as (p & q & Hshape).
  rewrite !Hshape. intros H.
  apply append_inv_head in H. injection H as H.
  apply append_inv_tail in H. now apply of_nat_inj.
Qed.

(** ** generate_new_filename on a finite bucket *)

Lemma while_loop_mono (secure_filename : string -> string)
    (check : string -> result bool) (stem suffix : string) (fuel : nat) :
  forall (st : loop_state) (out : result string * list string) (fuel' : nat),
  while_loop secure_filename check fuel stem suffix st = Some out ->
  fuel <= fuel' ->
  while_loop secure_filename check fuel' stem suffix st = Some out.
Proof.
  induction fuel as [|fuel IH]; intros st out fuel' H Hle; [discriminate H|].
  destruct fuel' as [|fuel']; [lia|]. simpl in *.
  destruct (loop_step secure_filename check stem suffix st); [|exact H].
  apply IH; [exact H|lia].
Qed.

Lemma probe_bucket_total (bucket : gmap string s3_object) (name key : string)
    (n : nat) :
  get_name Utils.secure_filename name = Ok key ->
  exists b,
    probe Utils.secure_filename (_check_object_exists (head_of_bucket bucket))
      (nth_name name n) = Ok b.
Proof.
  intros Hk.
  assert (Hc : forall k, exists b,
               _check_object_exists (head_of_bucket bucket) k = Ok b).
  { intros k. unfold _check_object_exists, head_of_bucket.
    destruct (bucket !! k); eauto. }
  unfold probe. destruct n as [|n]; simpl.
  - rewrite Hk. apply Hc.
  - rewrite candidate_key;
      [apply Hc|apply stem_without_sep|apply suffix_without_sep].
Qed.

(** Among the keys of the candidates 1 to [size bucket + 1] one is not in
    the bucket. *)
Lemma free_candidate (bucket : gmap string s3_object) (stem suffix : string) :
  exists n,
    1 <= n <= S (size bucket)
    /\ bucket !! Utils.secure_filename (candidate stem suffix n) = None.
Proof.
  set (k := fun n => Utils.secure_filename (candidate stem suffix n)).
  set (l := k <$> seq 1 (S (size bucket))).
  assert (Hnd : NoDup l).
  { apply NoDup_fmap_2; [|apply NoDup_seq].
    intros n m. apply candidate_key_injective. }
  destruct (decide (Forall (fun x => is_Some (bucket !! x)) l)) as [Hall|Hnot].
  - exfalso.
    assert (Hsub : (list_to_set l : gset string) ⊆ dom bucket).
    { intros x Hx. apply elem_of_list_to_set in Hx. apply elem_of_dom.
      rewrite Forall_forall in Hall. now apply Hall. }
    apply subseteq_size in Hsub.
    rewrite size_list_to_set, size_dom in Hsub by exact Hnd.
    unfold l in Hsub. rewrite length_fmap, length_seq in Hsub. lia.
  - apply not_Forall_Exists in Hnot; [|intros x; apply _].
    apply Exists_exists in Hnot as (x & Hx & Hfree).
    apply list_elem_of_fmap in Hx as (n & -> & Hn).
    apply elem_of_seq in Hn. exists n. split; [lia|].
    change (bucket !! k n = None). simpl in Hfree.
    destruct (bucket !! k n) eqn:Hb; [|reflexivity].
    destruct Hfree. eauto.
Qed.

(** X15. On a bucket that holds finitely many objects the loop ends: with
    the modelled sanitiser, [generate_new_filename(name)] returns a name,
    and raises nothing, after at most [size + 2] existence checks, for
    every name that has a key. *)
Theorem generate_ends_on_bucket
    (bucket : gmap string s3_object) (name key : string) :
  get_name Utils.secure_filename name = Ok key ->
  exists r log,
    generate_new_filename Utils.secure_filename
      (_check_object_exists (head_of_bucket bucket)) (size bucket + 2) name
    = Some (Ok r, log)
    /\ List.length log <= size bucket + 2.
Proof.
  intros Hk.
  set (stem := Path.stem (Path.parse name)).
  set (suffix := Path.suffix (Path.parse name)).
  destruct (free_candidate bucket stem suffix) as (n & Hn & Hfree).
  assert (Hprobe : probe Utils.secure_filename
                     (_check_object_exists (head_of_bucket bucket))
                     (nth_name name n) = Ok false).
  { destruct n as [|n]; [lia|]. unfold probe. simpl.
    rewrite candidate_key;
      [|apply stem_without_sep|apply suffix_without_sep].
    simpl. now apply check_bucket_absent. }
  unfold generate_new_filename. rewrite Hk. fold stem suffix.
  destruct (while_ends Utils.secure_filename
              (_check_object_exists (head_of_bucket bucket)) stem suffix n
              (initial_state name key) Hk) as ([out log] & Hout).
  { unfold stem, suffix. now rewrite name_after_initial. }
  apply (while_loop_mono _ _ _ _ _ _ _ (size bucket + 2)) in Hout; [|lia].
  rewrite Hout.
  pose proof (while_outcome Utils.secure_filename
                (_check_object_exists (head_of_bucket bucket)) stem suffix
                (size bucket + 2) (initial_state name key) out log Hk Hout)
    as (m & _ & Hm).
  destruct out as [r|e].
  - destruct Hm as (Hlt & _ & _ & Hlen). exists r, log.
    split; [reflexivity|]. rewrite Hlen. simpl. lia.
  - exfalso. unfold stem, suffix in Hm. rewrite name_after_initial in Hm.
    destruct (probe_bucket_total bucket name key m Hk) as (b & Hb).
    congruence.
Qed.

Lemma generate_ends_on_bucket_witness :
  exists r log,
    generate_new_filename Utils.secure_filename
      (_check_object_exists (head_of_bucket two_objects))
      (size two_objects + 2) "a.png"
    = Some (Ok r, log)
    /\ List.length log <= size two_objects + 2.
Proof.
  apply (generate_ends_on_bucket two_objects "a.png" "a.png"). reflexivity.
Defined.

(** ** Failures of get_name and choice of locator *)

(** X16. [get_name] raises exactly when the path of the name has no leaf
    or the sanitised leaf is empty, is ["."] or holds a separator; what it
    raises is a [ValueError]. *)
Theorem get_name_raises_iff (secure_filename : string -> string) (x : string) :
  let leaf := Path.name (Path.parse x) in
  ((exists e, get_name secure_filename x = Raise e)
   <-> leaf = "" \/ secure_filename leaf = ""
       \/ Str.has_sep (secure_filename leaf) = true
       \/ secure_filename leaf = ".")
  /\ forall e, get_name secure_filename x = Raise e -> exists msg, e = ValueError msg.
Proof.
  intros leaf. unfold get_name, Path.with_name. fold leaf.
  destruct (Str.eqb leaf "") eqn:H0.
  { apply eqb_true in H0. split.
    - split; [auto|eauto].
    - intros e [= <-]. eauto. }
  destruct (Str.eqb (secure_filename leaf) "") eqn:H1.
  { apply eqb_true in H1. split.
    - split; [auto|eauto].
    - intros e [= <-]. eauto. }
  destruct (Str.has_sep (secure_filename leaf)) eqn:H2.
  { split.
    - split; [auto|eauto].
    - intros e [= <-]. eauto. }
  destruct (Str.eqb (secure_filename leaf) ".") eqn:H3.
  { apply eqb_true in H3. split.
    - split; [auto|eauto].
    - intros e [= <-]. eauto. }
  apply eqb_false in H0, H1, H3. simpl. split.
  - split.
    + intros (e & [=]).
    + intros [H | [H | [H | H]]]; try contradiction. discriminate H.
  - intros e [=].
Qed.

(** X17. [get_path] asks the client for a presigned locator only when
    there is no custom domain and query-string authentication is on;
    in every other configuration the locator does not depend on the
    client's presigner. *)
Theorem get_path_presigns_only_on_request
    (secure_filename : string -> string) (S3Client : Type)
    (presign presign' : S3Client -> string -> string -> string -> result string)
    (self : S3Storage S3Client) (name : string) :
  AWS_S3_CUSTOM_DOMAIN (settings self) <> ""
  \/ AWS_QUERYSTRING_AUTH (settings self) = false ->
  get_path secure_filename S3Client presign self name
  = get_path secure_filename S3Client presign' self name.
Proof.
  intros Hcfg. unfold get_path.
  destruct (get_name secure_filename name) as [key|e]; simpl; [|reflexivity].
  destruct (Str.eqb (AWS_S3_CUSTOM_DOMAIN (settings self)) "") eqn:Hd; simpl;
    [|reflexivity].
  destruct Hcfg as [Hcfg | Hq]; [apply eqb_true in Hd; now destruct Hcfg|].
  now rewrite Hq.
Qed.

Lemma get_path_presigns_only_on_request_witness :
  get_path Utils.secure_filename client_args fake_presign plain_instance "a.png"
  = get_path Utils.secure_filename client_args
      (fun _ _ _ _ => Raise (TransportFailure "offline")) plain_instance "a.png".
Proof.
  apply (get_path_presigns_only_on_request Utils.secure_filename client_args
           fake_presign (fun _ _ _ _ => Raise (TransportFailure "offline"))
           plain_instance "a.png").
  right. reflexivity.
Defined.
